(** * Showmax/env: the binding-and-coercion engine of [env.go]

    A shallow embedding of the reflective loader of [env.go] (the current
    revision, the second one in the source file) and the properties of its
    record walker, value binder, list tokenizer and associative-key scanner.

    How the Go program is read:
    - a [reflect.Value] is a type, the content of the location, and the two
      flag bits the loader tests; a function that writes through its
      [reflect.Value] returns the content the location holds afterwards;
    - the destination is a tree: a pointer owns what it points to, and its
      address only serves [==]; destinations that share a pointee are not
      covered;
    - types are the scalar kinds, pointers, slices, maps and structs;
      arrays, channels, functions and interfaces are left out;
    - a call returns a result or panics; [os.LookupEnv] and [os.Environ]
      are recorded in a trace;
    - the standard-library parsers, the [UnmarshalText] methods of the
      program, the environment block and the iteration order of [range]
      over a map are parameters. *)

From Stdlib Require Import List Bool Arith ZArith NArith Lia String Ascii.
From Stdlib Require Import Permutation.
Import ListNotations.

Set Implicit Arguments.
Set Warnings "-register-all".
Local Open Scope N_scope.

(** ** Strings and runes

    A Go string is modelled by the sequence of runes that [range s] and
    [[]rune(s)] yield (the input is taken to be valid UTF-8, on which
    [len(s) == 0], [strings.HasPrefix], slicing at a prefix boundary and
    concatenation agree with the same operations on rune sequences). *)

Definition rune := N.
Definition gostring := list rune.

(** [str "a,b"] is the Go string with the same ASCII text. *)
Definition str (s : string) : gostring :=
  map N_of_ascii (list_ascii_of_string s).

(** The one-character texts of a double quote and of a backslash. *)
Definition dq : string := String (ascii_of_nat 34) EmptyString.
Definition bs : string := String (ascii_of_nat 92) EmptyString.

Definition rune_comma : rune := 44.
Definition rune_quote : rune := 34.
Definition rune_backslash : rune := 92.
Definition rune_NUL : rune := 0.

Definition gostring_eqb (a b : gostring) : bool :=
  if list_eq_dec N.eq_dec a b then true else false.

(** [unicode.IsSpace]: the Latin-1 switch, then the White_Space table. *)
Definition IsSpace (r : rune) : bool :=
  if r <=? 255 then
    (r =? 9) || (r =? 10) || (r =? 11) || (r =? 12) || (r =? 13)
    || (r =? 32) || (r =? 133) || (r =? 160)
  else
    (r =? 5760) || ((8192 <=? r) && (r <=? 8202)) || (r =? 8232)
    || (r =? 8233) || (r =? 8239) || (r =? 8287) || (r =? 12288).

(** ** Outcomes: a call returns or panics *)

Inductive panic : Type :=
| IndexOutOfRange       (* runes[i] past the end *)
| NilDereference        (* a value-receiver method called through a nil pointer *)
| SetUnaddressable      (* rv.Set on a value that cannot be set *)
| InterfaceUnexported   (* rv.Interface() on a value from an unexported field *)
| EmptyFieldName        (* panic("bug: f.Name cannot be empty") *)
| IllTyped.             (* the content does not inhabit the type: no Go value does this *)

Inductive outcome (A : Type) : Type :=
| Ok (a : A)
| Panic (p : panic).
Arguments Ok {A} a.
Arguments Panic {A} p.

Definition obind {A B} (m : outcome A) (k : A -> outcome B) : outcome B :=
  match m with
  | Ok a => k a
  | Panic p => Panic p
  end.

Declare Scope outcome_scope.
Delimit Scope outcome_scope with outcome.
Notation "'do' x <- m ; k" := (obind m (fun x => k))
  (at level 10, x pattern, m at level 100, k at level 200) : outcome_scope.

(** [runes[i]] with its bounds check. *)
Definition index (runes : list rune) (i : Z) : outcome rune :=
  if (i <? 0)%Z then Panic IndexOutOfRange
  else match nth_error runes (Z.to_nat i) with
       | Some r => Ok r
       | None => Panic IndexOutOfRange
       end.

(** ** The list tokenizer *)

Inductive tokenError : Type :=
| EmptyUnquotedField   (* "empty fields must be quoted" *)
| NULByte              (* "NUL byte in input" *)
| UnbalancedQuotes     (* "unbalanced quotes" *)
| TrailingEscape.      (* "trailing \\" *)

Record tokState : Type := mkTok {
  tok_q : bool;
  tok_esc : bool;
  tok_sb : gostring;
  tok_fields : list gostring
}.

(** The body of [for _, r := range s] in [tokenizeSliceString]. *)
Definition tokenizeStep (st : tokState) (r : rune) : tokenError + tokState :=
  let '(mkTok q esc sb fields) := st in
  if (r =? rune_comma) && negb esc && negb q then
    if (List.length sb =? 0)%nat then inl EmptyUnquotedField
    else inr (mkTok q esc [] (fields ++ [sb]))
  else
    let sb := sb ++ [r] in
    if (r =? rune_quote) && negb esc then inr (mkTok (negb q) esc sb fields)
    else if (r =? rune_backslash) && negb esc then inr (mkTok q true sb fields)
    else if r =? rune_NUL then inl NULByte
    else inr (mkTok q false sb fields).

Fixpoint tokenizeLoop (s : list rune) (st : tokState) : tokenError + tokState :=
  match s with
  | [] => inr st
  | r :: s' =>
      match tokenizeStep st r with
      | inl e => inl e
      | inr st' => tokenizeLoop s' st'
      end
  end.

Definition tokenizeSliceString (s : gostring) : tokenError + list gostring :=
  match tokenizeLoop s (mkTok false false [] []) with
  | inl e => inl e
  | inr (mkTok q esc sb fields) =>
      let fields := if (0 <? List.length sb)%nat then fields ++ [sb] else fields in
      if q then inl UnbalancedQuotes
      else if esc then inl TrailingEscape
      else inr fields
  end.

(** The first loop of [unescapeSliceField]; [n] is [end + 1]. *)
Fixpoint findEnd (runes : list rune) (n : nat) : Z :=
  match n with
  | O => (-1)%Z
  | S m =>
      let r := nth m runes 0 in
      if IsSpace r then findEnd runes m
      else if r =? rune_backslash then (Z.of_nat m + 1)%Z
      else Z.of_nat m
  end.

(** The second loop; the result is [start]. *)
Fixpoint findStart (runes : list rune) : nat :=
  match runes with
  | r :: rest => if IsSpace r then S (findStart rest) else O
  | [] => O
  end.

(** The third loop, [for i := start; i <= end; i++]: [n] counts the indices
    from [i] to [end], so that [i = end + 1 - n]; an escape consumes two. *)
Fixpoint extract (runes : list rune) (endi : Z) (n : nat) (sb : gostring)
  : outcome gostring :=
  match n with
  | O => Ok sb
  | S m =>
      let i := (endi + 1 - Z.of_nat n)%Z in
      (do r <- index runes i ;
       if r =? rune_backslash then
         do r' <- index runes (i + 1) ;
         match m with
         | O => Ok (sb ++ [r'])
         | S m' => extract runes endi m' (sb ++ [r'])
         end
       else if negb (r =? rune_quote) then extract runes endi m (sb ++ [r])
       else extract runes endi m sb)%outcome
  end.

Definition unescapeSliceField (f : gostring) : outcome gostring :=
  let runes := f in
  let endi := findEnd runes (List.length runes) in
  let start := Z.of_nat (findStart runes) in
  extract runes endi (Z.to_nat (endi + 1 - start)) [].

(** [for i, f := range fields { fields[i] = unescapeSliceField(f) }] *)
Fixpoint unescapeAll (fields : list gostring) : outcome (list gostring) :=
  match fields with
  | [] => Ok []
  | f :: rest =>
      (do f' <- unescapeSliceField f ;
       do rest' <- unescapeAll rest ;
       Ok (f' :: rest'))%outcome
  end.

(** Tokenize, then unescape every field: the strings handed to the
    per-element binder by [parseAndSetSlice]. *)
Definition sliceFields (s : gostring) : outcome (tokenError + list gostring) :=
  match tokenizeSliceString s with
  | inl e => Ok (inl e)
  | inr fields => (do fs <- unescapeAll fields ; Ok (inr fs))%outcome
  end.

(** ** Types, as [reflect.Type] shows them

    The universe covers the scalar kinds, pointers, slices, maps and structs;
    a defined type carries its name, an unnamed composite the empty name. *)

Inductive basicKind : Type :=
| Bool | Int | Int8 | Int16 | Int32 | Int64
| Uint | Uint8 | Uint16 | Uint32 | Uint64
| Float32 | Float64 | String_.

Inductive kind : Type :=
| Basic (b : basicKind)
| Ptr
| Slice
| Map
| Struct.

(** [reflect.StructField]: [Tag] is the result of [f.Tag.Lookup("env")]. *)
Record StructField (T : Type) : Type := mkField {
  Name : gostring;
  Tag : option gostring;
  Anonymous : bool;
  Type_ : T
}.
Arguments mkField {T} Name Tag Anonymous Type_.

Inductive type : Type :=
| TBasic (name : string) (b : basicKind)
| TPtr (elem : type)
| TSlice (name : string) (elem : type)
| TMap (name : string) (key elem : type)
| TStruct (name : string) (fields : list (StructField type)).

Definition Kind (rt : type) : kind :=
  match rt with
  | TBasic _ b => Basic b
  | TPtr _ => Ptr
  | TSlice _ _ => Slice
  | TMap _ _ _ => Map
  | TStruct _ _ => Struct
  end.

Definition kind_eqb (a b : kind) : bool :=
  match a, b with
  | Ptr, Ptr | Slice, Slice | Map, Map | Struct, Struct => true
  | Basic x, Basic y =>
      match x, y with
      | Bool, Bool | Int, Int | Int8, Int8 | Int16, Int16 | Int32, Int32
      | Int64, Int64 | Uint, Uint | Uint8, Uint8 | Uint16, Uint16
      | Uint32, Uint32 | Uint64, Uint64 | Float32, Float32
      | Float64, Float64 | String_, String_ => true
      | _, _ => false
      end
  | _, _ => false
  end.

Definition option_eqb {A} (eqb : A -> A -> bool) (a b : option A) : bool :=
  match a, b with
  | Some x, Some y => eqb x y
  | None, None => true
  | _, _ => false
  end.

(** Type identity, the key comparison of [map[reflect.Type]parseFunc]. *)
Fixpoint type_eqb (a b : type) : bool :=
  match a, b with
  | TBasic n x, TBasic n' x' => String.eqb n n' && kind_eqb (Basic x) (Basic x')
  | TPtr e, TPtr e' => type_eqb e e'
  | TSlice n e, TSlice n' e' => String.eqb n n' && type_eqb e e'
  | TMap n k e, TMap n' k' e' =>
      String.eqb n n' && type_eqb k k' && type_eqb e e'
  | TStruct n fs, TStruct n' fs' =>
      String.eqb n n' &&
      (fix fields_eqb (fs : list (StructField type)) (fs' : list (StructField type))
         {struct fs} : bool :=
         match fs, fs' with
         | [], [] => true
         | mkField fn ft fa fty :: r, mkField fn' ft' fa' fty' :: r' =>
             gostring_eqb fn fn' && option_eqb gostring_eqb ft ft'
             && Bool.eqb fa fa' && type_eqb fty fty' && fields_eqb r r'
         | _, _ => false
         end) fs fs'
  | _, _ => false
  end.

(** ** Values

    A pointer carries the address [reflect.New] gave it (pointers compare by
    address) and, as the store is a tree, the value it points to. *)

Definition addr := nat.

Inductive value : Type :=
| VBool (b : bool)
| VInt (z : Z)
| VFloat (bits : Z)
| VString (s : gostring)
| VNil
| VPtr (a : addr) (v : value)
| VSlice (vs : list value)
| VMap (kvs : list (value * value))
| VStruct (fs : list value).

(** [reflect.Zero]: the zero value of a type. *)
Fixpoint zero (rt : type) : value :=
  match rt with
  | TBasic _ Bool => VBool false
  | TBasic _ String_ => VString []
  | TBasic _ (Float32 | Float64) => VFloat 0
  | TBasic _ _ => VInt 0
  | TPtr _ | TSlice _ _ | TMap _ _ _ => VNil
  | TStruct _ fields =>
      VStruct ((fix zeros (fs : list (StructField type)) : list value :=
                  match fs with
                  | [] => []
                  | mkField _ _ _ fty :: r => zero fty :: zeros r
                  end) fields)
  end.

(** IEEE-754 comparison of two binary64 bit patterns. *)
Definition float_isNaN (bits : Z) : bool :=
  (Z.land (Z.shiftr bits 52) 2047 =? 2047)%Z
  && negb (Z.land bits 4503599627370495 =? 0)%Z.

Definition float_eqb (a b : Z) : bool :=
  negb (float_isNaN a) && negb (float_isNaN b)
  && ((a =? b)%Z
      || ((Z.land a 9223372036854775807 =? 0)%Z
          && (Z.land b 9223372036854775807 =? 0)%Z)).

(** Go's [==] on map keys. Slices and maps are not comparable and never
    key a map. *)
Fixpoint go_eqb (a b : value) : bool :=
  match a, b with
  | VBool x, VBool y => Bool.eqb x y
  | VInt x, VInt y => (x =? y)%Z
  | VFloat x, VFloat y => float_eqb x y
  | VString x, VString y => gostring_eqb x y
  | VNil, VNil => true
  | VPtr x _, VPtr y _ => (x =? y)%nat
  | VStruct xs, VStruct ys =>
      (fix all_eqb (xs ys : list value) {struct xs} : bool :=
         match xs, ys with
         | [], [] => true
         | x :: xs', y :: ys' => go_eqb x y && all_eqb xs' ys'
         | _, _ => false
         end) xs ys
  | _, _ => false
  end.

(** ** Errors

    One constructor per error the loader builds; [%w] wrapping nests. *)

Inductive error : Type :=
| errInvalidDst          (* "dst must be struct or struct pointer" *)
| errUnexportedDst       (* "cannot write unexported field" *)
| errVariableMissing     (* "variable missing" *)
| errExternal (msg : string)  (* returned by a parse function or UnmarshalText *)
| errToken (e : tokenError)
| errNotSupported (rt : type)               (* "parsing of %v not supported" *)
| errItem (i : nat) (err : error)           (* "item #%d: %w" *)
| errCannotParse (s : gostring) (rt : type) (err : error)
                                            (* "cannot parse %q as %s: %w" *)
| errCannotParseMap (rt : type) (err : error)   (* "cannot parse %s: %w" *)
| errKey (keyStr : gostring) (kt : type) (err : error)
                           (* "parsing string %q as the key (%s) failed: %w" *)
| errVal (valStr : gostring) (vt : type) (err : error)
                         (* "parsing string %q as the value (%s) failed: %w" *)
| errField (name : gostring) (err : error).     (* "%q: %w" *)

Record loadError : Type := mkLoadError { errs : list error }.

(** ** The loader and what it is linked against *)

(** [parseFunc]: the result is the error or, when the error is nil, the
    value (the loader never looks at the value beside an error). A parser is
    taken to return a value of the type it is registered for, so that
    [rv.Set(reflect.ValueOf(v))] does not panic on the type. *)
Definition parseFunc := gostring -> error + value.

(** [map[reflect.Type]parseFunc]: [None] is a missing key, [Some None] a key
    holding a nil func. *)
Record loader : Type := mkLoader {
  parsers : type -> option (option parseFunc)
}.

Definition AddParser (l : loader) (rt : type) (f : option parseFunc) : loader :=
  mkLoader (fun t => if type_eqb t rt then Some f else parsers l t).

Definition hasParser (l : loader) (rt : type) : bool :=
  match parsers l rt with
  | Some _ => true
  | None => false
  end.

(** [f := l.parsers[rt]] with [f != nil]. *)
Definition parserFor (l : loader) (rt : type) : option parseFunc :=
  match parsers l rt with
  | Some (Some f) => Some f
  | _ => None
  end.

(** An [UnmarshalText] method declared on a defined type. [um_call] takes
    the receiver's target (the value for a value receiver, the pointee for a
    pointer receiver) and gives what it holds after the call and the returned
    error; [um_nil] is the call on a nil pointer receiver. *)
Inductive receiver : Type := ByValue | ByPointer.

Record Unmarshaler : Type := mkUnmarshaler {
  um_recv : receiver;
  um_call : value -> gostring -> outcome (value * option error);
  um_nil : gostring -> outcome (option error)
}.

(** The state a call threads: the next address of [reflect.New] and the
    calls made to package [os]. *)
Inductive event : Type :=
| LookupEnv (name : gostring)
| Environ.

Record state : Type := mkState {
  next : addr;
  trace : list event
}.

Definition M (A : Type) : Type := state -> outcome (A * state).

Definition ret {A} (a : A) : M A := fun st => Ok (a, st).

Definition bind {A B} (m : M A) (k : A -> M B) : M B :=
  fun st =>
    match m st with
    | Ok (a, st') => k a st'
    | Panic p => Panic p
    end.

Definition lift {A} (o : outcome A) : M A :=
  fun st =>
    match o with
    | Ok a => Ok (a, st)
    | Panic p => Panic p
    end.

Declare Scope m_scope.
Delimit Scope m_scope with M.
Notation "x <- m ;; k" := (bind m (fun x => k))
  (at level 100, m at next level, right associativity) : m_scope.
Notation "' p <- m ;; k" := (bind m (fun p => k))
  (at level 100, p strict pattern, m at next level, right associativity) : m_scope.

(** [reflect.New]: a fresh address. *)
Definition reflectNew : M addr :=
  fun st => Ok (next st, mkState (S (next st)) (trace st)).

Definition emit (e : event) : M unit :=
  fun st => Ok (tt, mkState (next st) (trace st ++ [e])).

(** The flag bits of a [reflect.Value] that the loader tests: [flagAddr],
    and [flagRO] for either of the two read-only bits (the loader takes the
    fields of a struct only after it found the struct settable). *)
Record flags : Type := mkFlags {
  flagAddr : bool;
  flagRO : bool
}.

Definition CanAddr (fl : flags) : bool := flagAddr fl.
Definition CanSet (fl : flags) : bool := flagAddr fl && negb (flagRO fl).
Definition CanInterface (fl : flags) : bool := negb (flagRO fl).

(** [rv.Set(x)] panics unless [rv.CanSet()]. *)
Definition reflectSet (fl : flags) (x : value) : outcome value :=
  if CanSet fl then Ok x else Panic SetUnaddressable.

(** [follow]: every allocated pointer is written into its parent at once, so
    the followed location is described by its type, its current content, its
    flags, and [f_plug x], the content of the location [follow] started from
    once the followed one holds [x]. *)
Record followed : Type := mkFollowed {
  f_type : type;
  f_val : value;
  f_flags : flags;
  f_plug : value -> value
}.

Fixpoint follow (rt : type) (v : value) (fl : flags) : M followed :=
  match rt with
  | TPtr et =>
      match v with
      | VNil =>
          (a <- reflectNew ;;
           _ <- lift (reflectSet fl (VPtr a (zero et))) ;;
           r <- follow et (zero et) (mkFlags true false) ;;
           ret (mkFollowed (f_type r) (f_val r) (f_flags r)
                           (fun x => VPtr a (f_plug r x))))%M
      | VPtr a pv =>
          (r <- follow et pv (mkFlags true (flagRO fl)) ;;
           ret (mkFollowed (f_type r) (f_val r) (f_flags r)
                           (fun x => VPtr a (f_plug r x))))%M
      | _ => lift (Panic IllTyped)
      end
  | _ => ret (mkFollowed rt v fl (fun x => x))
  end.

(** [hasPrefix name prefix] is [strings.HasPrefix]; on a match
    [skipn (length prefix) name] is [name[len(prefix):]]. *)
Fixpoint hasPrefix (name prefix : gostring) : bool :=
  match prefix, name with
  | [], _ => true
  | p :: prefix', n :: name' => (n =? p) && hasPrefix name' prefix'
  | _ :: _, [] => false
  end.

(** A Go map as the list of its entries, for any key comparison. An
    assignment under a key that [==] finds in the map overwrites the entry,
    the key with it (string and float keys need the update: [-0 == +0]);
    for the other key types equal keys are identical. *)
Fixpoint mapassign {K V} (eqb : K -> K -> bool) (m : list (K * V)) (k : K) (v : V)
  : list (K * V) :=
  match m with
  | [] => [(k, v)]
  | (k', v') :: rest =>
      if eqb k' k then (k, v) :: rest else (k', v') :: mapassign eqb rest k v
  end.

Fixpoint update {A} (l : list A) (i : nat) (x : A) : list A :=
  match l, i with
  | [], _ => []
  | _ :: rest, O => x :: rest
  | y :: rest, S j => y :: update rest j x
  end.

Section Loader.

(** The program the loader is linked into and the process it runs in: the
    [UnmarshalText] methods declared on the (non-pointer) types, the
    environment block as [os.Environ] splits it at the first [=], the order
    in which [range] visits a map, and [unicode.IsUpper]. *)
Variable UnmarshalText : type -> option Unmarshaler.
Variable environ : list (gostring * gostring).
Variable mapiter : list (gostring * gostring) -> list (gostring * gostring).
Variable IsUpper : rune -> bool.

Variable l : loader.

(** [os.LookupEnv]: the value of the first entry with that name. *)
Definition getenv (name : gostring) : option gostring :=
  option_map snd (find (fun ev => gostring_eqb (fst ev) name) environ).

Definition lookupEnv (name : gostring) : M (option gostring) :=
  (_ <- emit (LookupEnv name) ;; ret (getenv name))%M.

Definition isExported (f : StructField type) : outcome bool :=
  match Name f with
  | r :: _ => Ok (IsUpper r)
  | [] => Panic EmptyFieldName
  end.

(** The interface value [textUnmarshaler] returns: calling its
    [UnmarshalText] gives the content of [rv] after the call and the error. *)
Definition TextUnmarshaler := gostring -> outcome (value * option error).

(** Whether the method set of [rt] holds [UnmarshalText]: a pointer type
    has the methods of both receivers of its element type, any other type
    its value-receiver methods. *)
Definition methodSet (rt : type) : option Unmarshaler :=
  match rt with
  | TPtr (TPtr _) => None
  | TPtr t => UnmarshalText t
  | t =>
      match UnmarshalText t with
      | Some m =>
          match um_recv m with
          | ByValue => Some m
          | ByPointer => None
          end
      | None => None
      end
  end.

(** The method called on a receiver of pointer type holding [v]. *)
Definition callThroughPointer (m : Unmarshaler) (v : value) : TextUnmarshaler :=
  fun s =>
    match v with
    | VPtr a pv =>
        (do r <- um_call m pv s ; Ok (VPtr a (fst r), snd r))%outcome
    | VNil =>
        match um_recv m with
        | ByPointer => (do e <- um_nil m s ; Ok (VNil, e))%outcome
        | ByValue => Panic NilDereference
        end
    | _ => Panic IllTyped
    end.

Definition textUnmarshaler (rt : type) (v : value) (fl : flags)
  : outcome (option TextUnmarshaler) :=
  if negb (CanInterface fl) then Panic InterfaceUnexported
  else
    match methodSet rt with
    | Some m =>
        Ok (Some (match rt with
                  | TPtr _ => callThroughPointer m v
                  | _ => um_call m v
                  end))
    | None =>
        if negb (CanAddr fl) then Ok None
        else
          (* rv = rv.Addr(): a non-nil pointer whose target is rv *)
          match methodSet (TPtr rt) with
          | Some m => Ok (Some (um_call m v))
          | None => Ok None
          end
    end.

(** The two loops of [parseAndSetSlice] over [sl]; [parse] is
    [l.parseAndSetValue] at the element type. *)
Fixpoint setItems (parse : gostring -> value -> outcome (value * option error))
    (fields : list gostring) (i : nat) (sl : list value)
  : outcome (list value * option error) :=
  match fields with
  | [] => Ok (sl, None)
  | s :: rest =>
      match nth_error sl i with
      | None => Panic IndexOutOfRange
      | Some x =>
          (do r <- parse s x ;
           match snd r with
           | Some err => Ok (sl, Some (errItem i err))
           | None => setItems parse rest (S i) (update sl i (fst r))
           end)%outcome
      end
  end.

Definition parseAndSetSliceWith
    (parse : gostring -> value -> outcome (value * option error))
    (et : type) (s : gostring) (v : value) (fl : flags)
  : outcome (value * option error) :=
  match tokenizeSliceString s with
  | inl e => Ok (v, Some (errToken e))
  | inr fields =>
      (do fields <- unescapeAll fields ;
       let nfield := List.length fields in
       let sl := repeat (zero et) nfield in
       do r <- setItems parse fields 0 sl ;
       match snd r with
       | Some err => Ok (v, Some err)
       | None => do x <- reflectSet fl (VSlice (fst r)) ; Ok (x, None)
       end)%outcome
  end.

(** [l.parseAndSetValue(s, rv)]: the content of [rv] afterwards and the
    returned error. An element [sl.Index(i)] is addressable and writable. *)
Fixpoint parseAndSetValue (rt : type) (s : gostring) (v : value) (fl : flags)
  {struct rt} : outcome (value * option error) :=
  (do otu <- textUnmarshaler rt v fl ;
   match otu with
   | Some tu => tu s
   | None =>
       match parserFor l rt with
       | Some f =>
           match f s with
           | inr x => do x' <- reflectSet fl x ; Ok (x', None)
           | inl err => Ok (v, Some err)
           end
       | None =>
           match rt with
           | TSlice _ et =>
               parseAndSetSliceWith
                 (fun s' x => parseAndSetValue et s' x (mkFlags true false))
                 et s v fl
           | _ => Ok (v, Some (errNotSupported rt))
           end
       end
   end)%outcome.

Definition parseAndSetSlice (rt : type) (s : gostring) (v : value) (fl : flags)
  : outcome (value * option error) :=
  match rt with
  | TSlice _ et =>
      parseAndSetSliceWith
        (fun s' x => parseAndSetValue et s' x (mkFlags true false)) et s v fl
  | _ => Panic IllTyped
  end.

(** [varsPrefixed]: the map [vars] as the list of its entries;
    [prefixedVars] is the loop over what [os.Environ] returned. *)
Definition prefixedVars (prefix : gostring) : list (gostring * gostring) :=
  fold_left
    (fun vars ev =>
       let '(name, value) := ev in
       if hasPrefix name prefix then mapassign gostring_eqb vars name value
       else vars)
    environ [].

Definition varsPrefixed (prefix : gostring) : M (list (gostring * gostring)) :=
  (_ <- emit Environ ;; ret (prefixedVars prefix))%M.

(** [reflect.New(t).Elem()] followed, bound from [raw], and read back. *)
Definition bindFresh (t : type) (raw : gostring) : M (value * option error) :=
  (_ <- reflectNew ;;
   r <- follow t (zero t) (mkFlags true false) ;;
   res <- lift (parseAndSetValue (f_type r) raw (f_val r) (f_flags r)) ;;
   ret (f_plug r (fst res), snd res))%M.

(** The body of [for varName, valStr := range varsPrefixed(mapName)]. *)
Fixpoint mapEntries (mapName : gostring) (kt vt : type)
    (vars : list (gostring * gostring)) (dstMap : list (value * value))
  : M (list (value * value) * option error) :=
  match vars with
  | [] => ret (dstMap, None)
  | (varName, valStr) :: rest =>
      let keyStr := skipn (List.length mapName) varName in
      (key <- bindFresh kt keyStr ;;
       match snd key with
       | Some err => ret (dstMap, Some (errKey keyStr kt err))
       | None =>
           val <- bindFresh vt valStr ;;
           match snd val with
           | Some err => ret (dstMap, Some (errVal valStr vt err))
           | None =>
               mapEntries mapName kt vt rest
                 (mapassign go_eqb dstMap (fst key) (fst val))
           end
       end)%M
  end.

Definition parseAndSetMap (mapName : gostring) (rt : type) (v : value) (fl : flags)
  : M (value * option error) :=
  match rt with
  | TMap _ kt vt =>
      (vars <- varsPrefixed mapName ;;
       r <- mapEntries mapName kt vt (mapiter vars) [] ;;
       match snd r with
       | Some err => ret (v, Some err)
       | None => x <- lift (reflectSet fl (VMap (fst r))) ;; ret (x, None)
       end)%M
  | _ => lift (Panic IllTyped)
  end.

(** [if !l.hasParser(rv.Type()) { rv = follow(rv) }] *)
Definition followUnlessParsed (rt : type) (v : value) (fl : flags) : M followed :=
  if negb (hasParser l rt) then follow rt v fl
  else ret (mkFollowed rt v fl (fun x => x)).

Definition loadVar (rt : type) (v : value) (fl : flags) (name : gostring)
  : M (value * option error) :=
  (r <- followUnlessParsed rt v fl ;;
   tu <- lift (textUnmarshaler (f_type r) (f_val r) (f_flags r)) ;;
   if match tu with None => true | Some _ => false end
      && kind_eqb (Kind (f_type r)) Map
   then
     res <- parseAndSetMap name (f_type r) (f_val r) (f_flags r) ;;
     ret (f_plug r (fst res), option_map (errCannotParseMap (f_type r)) (snd res))
   else
     found <- lookupEnv name ;;
     match found with
     | None => ret (f_plug r (f_val r), Some errVariableMissing)
     | Some s =>
         res <- lift (parseAndSetValue (f_type r) s (f_val r) (f_flags r)) ;;
         ret (f_plug r (fst res),
              option_map (errCannotParse s (f_type r)) (snd res))
     end)%M.

(** One iteration of the loop of [loadStruct] on field [f] holding [fv];
    [recurse] is [l.loadStruct] on the field. *)
Definition loadField
    (recurse : value -> flags -> gostring -> M (value * list error))
    (fl : flags) (prefix : gostring) (f : StructField type) (fv : value)
    (errs : list error) : M (value * list error) :=
  let tag := match Tag f with Some t => t | None => [] end in
  let hasTag := match Tag f with Some _ => true | None => false end in
  let isStruct := kind_eqb (Kind (Type_ f)) Struct in
  let isAnonStruct := isStruct && Anonymous f in
  if negb hasTag && negb isAnonStruct then ret (fv, errs)
  else
    (exported <- lift (isExported f) ;;
     if negb exported then
       ret (fv, errs ++ [errField (Name f) errUnexportedDst])
     else
       let ffl := mkFlags (flagAddr fl) (flagRO fl || negb exported) in
       if negb (CanInterface ffl) || negb (CanSet ffl) then
         ret (fv, errs ++ [errField (Name f) errInvalidDst])
       else
         let name := prefix ++ tag in
         tu <- lift (textUnmarshaler (Type_ f) fv ffl) ;;
         let isTU := match tu with Some _ => true | None => false end in
         let hasP := hasParser l (Type_ f) in
         if isStruct && negb hasP && negb isTU then
           res <- recurse fv ffl name ;;
           ret (fst res, errs ++ snd res)
         else
           res <- loadVar (Type_ f) fv ffl name ;;
           match snd res with
           | Some err => ret (fst res, errs ++ [errField name err])
           | None => ret (fst res, errs)
           end)%M.

(** [for i := 0; i < rt.NumField(); i++]: the fields of [rv] and the
    accumulated [errs] after the loop. *)
Fixpoint loadFields
    (recurse : type -> value -> flags -> gostring -> M (value * list error))
    (fl : flags) (prefix : gostring) (fields : list (StructField type))
    (vs : list value) (errs : list error) {struct fields}
  : M (list value * list error) :=
  match fields, vs with
  | [], [] => ret ([], errs)
  | f :: fields', fv :: vs' =>
      (r <- loadField (recurse (Type_ f)) fl prefix f fv errs ;;
       rest <- loadFields recurse fl prefix fields' vs' (snd r) ;;
       ret (fst r :: fst rest, snd rest))%M
  | _, _ => lift (Panic IllTyped)
  end.

(** [l.loadStruct(rv, prefix)] at a value of kind Struct, which is what the
    recursive call of the loop is made on: [follow] returns it as it is. *)
Fixpoint loadStructAt (rt : type) (v : value) (fl : flags) (prefix : gostring)
  {struct rt} : M (value * list error) :=
  match rt with
  | TStruct _ fields =>
      if negb (CanAddr fl) then ret (v, [errInvalidDst])
      else
        match v with
        | VStruct vs =>
            (res <- loadFields loadStructAt fl prefix fields vs [] ;;
             ret (VStruct (fst res), snd res))%M
        | _ => lift (Panic IllTyped)
        end
  | _ => ret (v, [errInvalidDst])
  end.

(** [l.loadStruct(rv, prefix)]: the content of [rv] afterwards and [errs]. *)
Definition loadStruct (rt : type) (v : value) (fl : flags) (prefix : gostring)
  : M (value * list error) :=
  (r <- follow rt v fl ;;
   if negb (kind_eqb (Kind (f_type r)) Struct) || negb (CanAddr (f_flags r)) then
     ret (f_plug r (f_val r), [errInvalidDst])
   else
     res <- loadStructAt (f_type r) (f_val r) (f_flags r) prefix ;;
     ret (f_plug r (fst res), snd res))%M.

(** [l.Load(dst, prefix)]: [dst] is the dynamic type and value of the
    interface; [reflect.ValueOf(dst)] is neither addressable nor read-only. *)
Definition loader_Load (dst : type * value) (prefix : gostring)
  : M (value * option loadError) :=
  (res <- loadStruct (fst dst) (snd dst) (mkFlags false false) prefix ;;
   if (0 <? List.length (snd res))%nat
   then ret (fst res, Some (mkLoadError (snd res)))
   else ret (fst res, None))%M.

End Loader.

(** ** The default parsers

    The standard-library functions the default parsers call, and the three
    library struct types they are registered for. A float is the bit pattern
    of its binary64 value. *)
Record GoLib : Type := mkGoLib {
  t_Regexp : type;
  t_URL : type;
  t_Template : type;
  IntSize : Z;
  strconv_ParseBool : gostring -> error + bool;
  strconv_Atoi : gostring -> error + Z;
  strconv_ParseInt : gostring -> Z -> Z -> error + Z;
  strconv_ParseUint : gostring -> Z -> Z -> error + Z;
  strconv_ParseFloat : gostring -> Z -> error + Z;
  regexp_Compile : gostring -> error + value;
  time_ParseDuration : gostring -> error + Z;
  url_Parse : gostring -> error + value;
  template_Parse : gostring -> error + value
}.

Definition mapResult {A} (f : A -> value) (r : error + A) : error + value :=
  match r with
  | inl e => inl e
  | inr a => inr (f a)
  end.

Section DefaultParsers.

Variable lib : GoLib.

Definition parseBool : parseFunc :=
  fun s => mapResult VBool (strconv_ParseBool lib s).

Definition parseFileMode : parseFunc :=
  fun s =>
    match s with
    | c :: _ =>
        if negb (c =? 48) then inl (errExternal "file mode must be prefixed with 0")
        else mapResult VInt (strconv_ParseUint lib s 8 32)
    | [] => mapResult VInt (strconv_ParseUint lib s 8 32)
    end.

Definition parseFloat32 : parseFunc :=
  fun s => mapResult VFloat (strconv_ParseFloat lib s 32).
Definition parseFloat64 : parseFunc :=
  fun s => mapResult VFloat (strconv_ParseFloat lib s 64).
Definition parseInt : parseFunc :=
  fun s => mapResult VInt (strconv_Atoi lib s).
Definition parseUint : parseFunc :=
  fun s => mapResult VInt (strconv_ParseUint lib s 10 (IntSize lib)).
Definition parseInt8 : parseFunc :=
  fun s => mapResult VInt (strconv_ParseInt lib s 10 8).
Definition parseUint8 : parseFunc :=
  fun s => mapResult VInt (strconv_ParseUint lib s 10 8).
Definition parseInt16 : parseFunc :=
  fun s => mapResult VInt (strconv_ParseInt lib s 10 16).
Definition parseUint16 : parseFunc :=
  fun s => mapResult VInt (strconv_ParseUint lib s 10 16).
Definition parseInt32 : parseFunc :=
  fun s => mapResult VInt (strconv_ParseInt lib s 10 32).
Definition parseUint32 : parseFunc :=
  fun s => mapResult VInt (strconv_ParseUint lib s 10 32).
Definition parseInt64 : parseFunc :=
  fun s => mapResult VInt (strconv_ParseInt lib s 10 64).
Definition parseUint64 : parseFunc :=
  fun s => mapResult VInt (strconv_ParseUint lib s 10 64).
Definition parseString : parseFunc := fun s => inr (VString s).
Definition parseRegex : parseFunc := fun s => regexp_Compile lib s.
Definition parseDuration : parseFunc :=
  fun s => mapResult VInt (time_ParseDuration lib s).
Definition parseURL : parseFunc := fun s => url_Parse lib s.
Definition parseTextTemplate : parseFunc := fun s => template_Parse lib s.

Definition t_bool := TBasic "bool" Bool.
Definition t_int := TBasic "int" Int.
Definition t_string := TBasic "string" String_.

(** The map literal of [defaultParsers], entry by entry. *)
Definition defaultParsersList : list (type * parseFunc) :=
  [ (t_bool, parseBool);
    (TBasic "os.FileMode" Uint32, parseFileMode);
    (TBasic "float32" Float32, parseFloat32);
    (TBasic "float64" Float64, parseFloat64);
    (t_int, parseInt);
    (TBasic "uint" Uint, parseUint);
    (TBasic "int8" Int8, parseInt8);
    (TBasic "uint8" Uint8, parseUint8);
    (TBasic "int16" Int16, parseInt16);
    (TBasic "uint16" Uint16, parseUint16);
    (TBasic "int32" Int32, parseInt32);
    (TBasic "uint32" Uint32, parseUint32);
    (TBasic "int64" Int64, parseInt64);
    (TBasic "uint64" Uint64, parseUint64);
    (t_string, parseString);
    (t_Regexp lib, parseRegex);
    (TBasic "time.Duration" Int64, parseDuration);
    (t_URL lib, parseURL);
    (t_Template lib, parseTextTemplate) ].

Definition defaultParsers : type -> option (option parseFunc) :=
  parsers
    (fold_left (fun l e => AddParser l (fst e) (Some (snd e)))
               defaultParsersList (mkLoader (fun _ => None))).

Definition newLoader : loader := mkLoader defaultParsers.

End DefaultParsers.

(** [Load(dst, prefix)], with the default loader. *)
Definition Load (UnmarshalText : type -> option Unmarshaler)
    (environ : list (gostring * gostring))
    (mapiter : list (gostring * gostring) -> list (gostring * gostring))
    (IsUpper : rune -> bool) (lib : GoLib)
    (dst : type * value) (prefix : gostring) : M (value * option loadError) :=
  loader_Load UnmarshalText environ mapiter IsUpper (newLoader lib) dst prefix.

(** ** A concrete program and process for the examples *)

Module Ex.

(** [unicode.IsUpper] on Latin-1. *)
Definition IsUpper (r : rune) : bool :=
  ((65 <=? r) && (r <=? 90)) || ((192 <=? r) && (r <=? 214))
  || ((216 <=? r) && (r <=? 222)).

(** [strconv.ParseBool] *)
Definition ParseBool (s : gostring) : error + bool :=
  if existsb (gostring_eqb s)
       [str "1"; str "t"; str "T"; str "TRUE"; str "true"; str "True"]
  then inr true
  else if existsb (gostring_eqb s)
       [str "0"; str "f"; str "F"; str "FALSE"; str "false"; str "False"]
  then inr false
  else inl (errExternal "strconv.ParseBool: invalid syntax").

Fixpoint digits (base : Z) (s : gostring) (acc : Z) : option Z :=
  match s with
  | [] => Some acc
  | c :: rest =>
      let d := (Z.of_N c - 48)%Z in
      if ((0 <=? d) && (d <? base))%Z then digits base rest (acc * base + d)%Z
      else None
  end.

(** [strconv.ParseUint] and [strconv.ParseInt] for an explicit base of at
    most ten. *)
Definition ParseUint (s : gostring) (base bits : Z) : error + Z :=
  match s with
  | [] => inl (errExternal "strconv.ParseUint: invalid syntax")
  | _ =>
      match digits base s 0 with
      | None => inl (errExternal "strconv.ParseUint: invalid syntax")
      | Some z =>
          if (z <? 2 ^ bits)%Z then inr z
          else inl (errExternal "strconv.ParseUint: value out of range")
      end
  end.

Definition ParseInt (s : gostring) (base bits : Z) : error + Z :=
  let '(neg, body) :=
    match s with
    | 43 :: rest => (false, rest)
    | 45 :: rest => (true, rest)
    | _ => (false, s)
    end in
  match body with
  | [] => inl (errExternal "strconv.ParseInt: invalid syntax")
  | _ =>
      match digits base body 0 with
      | None => inl (errExternal "strconv.ParseInt: invalid syntax")
      | Some z =>
          let z := if neg then (- z)%Z else z in
          if ((- 2 ^ (bits - 1) <=? z) && (z <? 2 ^ (bits - 1)))%Z then inr z
          else inl (errExternal "strconv.ParseInt: value out of range")
      end
  end.

Definition unmodelled {A} (_ : gostring) : error + A :=
  inl (errExternal "not modelled").

(** The library of the examples: booleans and integers as [strconv] parses
    them; floats, regular expressions, durations, URLs and templates are not
    used by the examples and reject every input. *)
Definition lib : GoLib :=
  mkGoLib (TStruct "regexp.Regexp" []) (TStruct "url.URL" [])
          (TStruct "template.Template" []) 64
          ParseBool (fun s => ParseInt s 10 64) ParseInt ParseUint
          (fun s _ => unmodelled s) unmodelled unmodelled unmodelled unmodelled.

Definition noMethods : type -> option Unmarshaler := fun _ => None.

Definition st0 : state := mkState 100%nat [].

(** [type Foo struct { Foo string `env:"FOO"` }] and the configuration of
    the end-to-end scenario. *)
Definition Foo : type :=
  TStruct "Foo" [mkField (str "Foo") (Some (str "FOO")) false t_string].

Definition config : type :=
  TStruct "config"
    [ mkField (str "Int") (Some (str "INT")) false t_int;
      mkField (str "Name") (Some (str "STRING")) false t_string;
      mkField (str "Inner") (Some (str "INNER_")) false Foo ].

Definition goodEnv : list (gostring * gostring) :=
  [ (str "APP_INT", str "1"); (str "APP_STRING", str "s");
    (str "APP_INNER_FOO", str "f") ].

(** [Foo int `env:"FOO"`; Bar string `env:"BAR"`; Foobar string], the
    struct of [ExampleLoad]. *)
Definition Foobar : StructField type := mkField (str "Foobar") None false t_string.

Definition exampleConfig : type :=
  TStruct "config"
    [ mkField (str "Foo") (Some (str "FOO")) false t_int;
      mkField (str "Bar") (Some (str "BAR")) false t_string;
      Foobar ].

(** [struct { Bool *bool `env:"BOOL"` }] *)
Definition ptrConfig : type :=
  TStruct "cfg" [mkField (str "Bool") (Some (str "BOOL")) false (TPtr t_bool)].

(** [type customMap map[string]string] with an [UnmarshalText] on the
    pointer receiver that stores the text it is given under one key. *)
Definition customMap : type := TMap "customMap" t_string t_string.

Definition customMapMethods (t : type) : option Unmarshaler :=
  if type_eqb t customMap then
    Some (mkUnmarshaler ByPointer
            (fun _ text => Ok (VMap [(VString (str "text"), VString text)], None))
            (fun _ => Ok (Some (errExternal "nil receiver"))))
  else None.

(** [map[bool]string] and [map[string]string] *)
Definition boolMap : type := TMap EmptyString t_bool t_string.
Definition stringMap : type := TMap EmptyString t_string t_string.

(** [struct { P *S `env:"P"` }] for a struct [S] without fields, and a
    loader that was given a parser for [*S]. *)
Definition S : type := TStruct "S" [].

Definition holder : type :=
  TStruct "holder" [mkField (str "P") (Some (str "P")) false (TPtr S)].

(** [struct { p *S `env:"P"` }]: the same field, unexported. *)
Definition hidden : type :=
  TStruct "hidden" [mkField (str "p") (Some (str "P")) false (TPtr S)].

Definition withPointerParser : loader :=
  AddParser (newLoader lib) (TPtr S)
            (Some (fun _ => inr (VPtr 7%nat (VStruct [])))).

(** The iteration order of [range] taken to be the insertion order. *)
Definition inOrder (vars : list (gostring * gostring)) := vars.

Definition settable : flags := mkFlags true false.

(** Three entries, two of them under the prefix [MAP_]. *)
Definition mapEnv : list (gostring * gostring) :=
  [ (str "MAP_a", str "A"); (str "OTHER", str "z"); (str "MAP_b", str "B") ].

(** [map[float64]string], and a loader that was given a parser for
    [float64] reading the two zeros: [0] is the bit pattern 0, [-0] has the
    sign bit alone. *)
Definition t_float64 : type := TBasic "float64" Float64.
Definition floatMap : type := TMap EmptyString t_float64 t_string.
Definition negZero : Z := 9223372036854775808%Z.

Definition parseZeros : parseFunc :=
  fun s =>
    if gostring_eqb s (str "0") then inr (VFloat 0)
    else if gostring_eqb s (str "-0") then inr (VFloat negZero)
    else inl (errExternal "invalid syntax").

Definition zerosLoader : loader :=
  AddParser (newLoader lib) t_float64 (Some parseZeros).

(** [0] and [-0] under the prefix [MAP_]. *)
Definition zerosEnv : list (gostring * gostring) :=
  [ (str "MAP_0", str "a"); (str "MAP_-0", str "b") ].

Definition load (um : type -> option Unmarshaler)
    (env : list (gostring * gostring)) (dst : type * value) (prefix : gostring) :=
  Load um env (fun vars => vars) IsUpper lib dst prefix st0.

End Ex.


(** The state [tokenizeSliceString] starts its loop in. *)
Definition tok0 : tokState := mkTok false false [] [].

(** What a call that held [errs] on entry returns, from what it returns
    when it holds none. *)
Definition withErrs {A} (acc : list error) (r : outcome (A * list error * state))
  : outcome (A * list error * state) :=
  match r with
  | Ok (a, e, st) => Ok (a, acc ++ e, st)
  | Panic p => Panic p
  end.

(** [ptrTo n leaf]: [n] levels of pointer to [leaf]. *)
Fixpoint ptrTo (n : nat) (leaf : type) : type :=
  match n with
  | O => leaf
  | S m => TPtr (ptrTo m leaf)
  end.

(** [isChain n v]: [v] inhabits an [n]-level pointer type, each level nil
    or a pointer. *)
Fixpoint isChain (n : nat) (v : value) : bool :=
  match n with
  | O => true
  | S m =>
      match v with
      | VNil => true
      | VPtr _ pv => isChain m pv
      | _ => false
      end
  end.

(** [deref n v]: the value behind [n] pointers, none of them nil. *)
Fixpoint deref (n : nat) (v : value) : option value :=
  match n with
  | O => Some v
  | S m =>
      match v with
      | VPtr _ pv => deref m pv
      | _ => None
      end
  end.

(** What the leaf holds once every level exists: its content where the
    chain was complete, the zero value where a level was nil. *)
Fixpoint leafContent (n : nat) (leaf : type) (v : value) : value :=
  match n with
  | O => v
  | S m =>
      match v with
      | VPtr _ pv => leafContent m leaf pv
      | _ => zero leaf
      end
  end.

(** Folding [SetMapIndex] over a list of entries. *)
Definition setAll (kvs : list (value * value)) (m : list (value * value))
  : list (value * value) :=
  fold_left (fun m kv => mapassign go_eqb m (fst kv) (snd kv)) kvs m.

(** A call that makes no call to [os]. *)
Definition silent {A} (m : M A) : Prop :=
  forall st a st', m st = Ok (a, st') -> trace st' = trace st.

(** [entryOf um l mapName kt vt ev kv]: the map entry [kv] is what the
    environment entry [ev] binds to, the key from the name after the prefix,
    the value from the value string. *)
Definition entryOf (UnmarshalText : type -> option Unmarshaler) (l : loader)
    (mapName : gostring) (kt vt : type)
    (ev : gostring * gostring) (kv : value * value) : Prop :=
  exists s1 s2 s3,
    bindFresh UnmarshalText l kt (skipn (List.length mapName) (fst ev)) s1
    = Ok (fst kv, None, s2)
    /\ bindFresh UnmarshalText l vt (snd ev) s2 = Ok (snd kv, None, s3).

(** No key equals, under [==], a key that comes later. *)
Fixpoint distinctKeys (kvs : list (value * value)) : Prop :=
  match kvs with
  | [] => True
  | kv :: rest =>
      Forall (fun kv' => go_eqb (fst kv) (fst kv') = false) rest
      /\ distinctKeys rest
  end.

(** Every field followed by a comma, and the fields with a comma between
    each two. *)
Definition joinComma (fields : list gostring) : gostring :=
  flat_map (fun f => f ++ [rune_comma]) fields.

Fixpoint intercalate (fields : list gostring) : gostring :=
  match fields with
  | [] => []
  | [f] => f
  | f :: rest => f ++ rune_comma :: intercalate rest
  end.

(** A rune the tokenizer gives no meaning to, and a field made of such
    runes that neither starts nor ends with whitespace. *)
Definition plainRune (r : rune) : bool :=
  negb ((r =? rune_comma) || (r =? rune_quote) || (r =? rune_backslash)
        || (r =? rune_NUL)).

Definition plainField (f : gostring) : bool :=
  forallb plainRune f
  && match f with
     | [] => false
     | r :: _ => negb (IsSpace r) && negb (IsSpace (last f rune_NUL))
     end.

(** The number of levels of an [n]-level pointer that do not exist yet:
    all those from the first nil one down. *)
Fixpoint missing (n : nat) (v : value) : nat :=
  match n with
  | O => O
  | S m =>
      match v with
      | VPtr _ pv => missing m pv
      | _ => S m
      end
  end.

(** The addresses of the pointers of an [n]-level chain, down to the
    first nil one. *)
Fixpoint chainAddrs (n : nat) (v : value) : list addr :=
  match n with
  | O => []
  | S m =>
      match v with
      | VPtr a pv => a :: chainAddrs m pv
      | _ => []
      end
  end.

(** [accounted environ prefix errs evs]: every name that [evs] looks up
    starts with [prefix], and every such name that the environment does not
    hold is reported in [errs] as a missing variable. *)
Definition accounted (environ : list (gostring * gostring)) (prefix : gostring)
    (errs : list error) (evs : list event) : Prop :=
  Forall (fun ev =>
            match ev with
            | LookupEnv name =>
                hasPrefix name prefix = true
                /\ (getenv environ name = None ->
                    In (errField name errVariableMissing) errs)
            | Environ => True
            end) evs.

(** A walker all of whose lookups are accounted for. *)
Definition walkAccounted (environ : list (gostring * gostring))
    (w : value -> flags -> gostring -> M (value * list error)) : Prop :=
  forall v fl prefix st v' e st',
    w v fl prefix st = Ok (v', e, st') ->
    exists evs, trace st' = trace st ++ evs /\ accounted environ prefix e evs.

(** ** The behaviour the specification words

    The definitions of this part follow the specification, not the source;
    the properties compare them with the loader. *)

(** The entries a sequence of assignments leaves in a map: an entry is
    gone when a later one is assigned under an equal key, which then stands
    with its own key and value. *)
Fixpoint survivors (kvs : list (value * value)) : list (value * value) :=
  match kvs with
  | [] => []
  | kv :: rest =>
      if existsb (fun kv' => go_eqb (fst kv) (fst kv')) rest
      then survivors rest
      else kv :: survivors rest
  end.

(** Whether a location of type [rt] holds the self-describing-parse
    capability: the value itself does when its type declares the method with
    a value receiver, or is a pointer to a type that declares it; an
    addressable value does through its address when its type declares the
    method with a pointer receiver. *)
Definition capable (UnmarshalText : type -> option Unmarshaler)
    (rt : type) (addressable : bool) : bool :=
  match rt with
  | TPtr (TPtr _) => false
  | TPtr t =>
      match UnmarshalText t with
      | Some _ => true
      | None => false
      end
  | t =>
      match UnmarshalText t with
      | Some m =>
          match um_recv m with
          | ByValue => true
          | ByPointer => addressable
          end
      | None => false
      end
  end.

(** The annotation of a field, empty where there is none. *)
Definition annotation (f : StructField type) : gostring :=
  match Tag f with
  | Some t => t
  | None => []
  end.

(** A field the walker does not skip: annotated, or an anonymously
    composed record. *)
Definition walked (f : StructField type) : bool :=
  match Tag f with
  | Some _ => true
  | None => kind_eqb (Kind (Type_ f)) Struct && Anonymous f
  end.

(** [insertAt n fv v]: the record [v], or the pointer to it, with the field
    value [fv] put in at position [n]. *)
Definition insertAt (n : nat) (fv : value) (v : value) : value :=
  match v with
  | VStruct vs => VStruct (firstn n vs ++ fv :: skipn n vs)
  | VPtr a (VStruct vs) => VPtr a (VStruct (firstn n vs ++ fv :: skipn n vs))
  | _ => v
  end.

Section WalkSpec.

Variable UnmarshalText : type -> option Unmarshaler.
Variable environ : list (gostring * gostring).
Variable mapiter : list (gostring * gostring) -> list (gostring * gostring).
Variable IsUpper : rune -> bool.
Variable l : loader.

(** The walker recurses into a field whose type is a nested record that
    has neither a registry entry nor the capability. *)
Definition recurses (f : StructField type) : bool :=
  kind_eqb (Kind (Type_ f)) Struct
  && negb (hasParser l (Type_ f))
  && negb (capable UnmarshalText (Type_ f) true).

(** [walk_spec prefix fields vs st vs' es st']: the Record Walker of the
    specification on the fields of a writable record holding [vs], started
    in state [st]: it leaves [vs'] in the fields and the state [st'], and
    collects [es]. Rule by rule: a field without annotation that is not an
    anonymously composed record is skipped; a field that is not exported
    adds the unexported-field error; a nested record is walked under the
    qualified name, and its errors come before those of the fields after it;
    any other field is bound under the qualified name, and adds the error of
    the binding under that name if there is one. After each of them the walk
    goes on with the next field. *)
Inductive walk_spec : gostring -> list (StructField type) -> list value -> state ->
                      list value -> list error -> state -> Prop :=
| walk_done prefix st :
    walk_spec prefix [] [] st [] [] st
| walk_skipped prefix f fs fv vs st vs' es st' :
    walked f = false ->
    walk_spec prefix fs vs st vs' es st' ->
    walk_spec prefix (f :: fs) (fv :: vs) st (fv :: vs') es st'
| walk_unexported prefix f fs fv vs st vs' es st' r name :
    walked f = true ->
    Name f = r :: name -> IsUpper r = false ->
    walk_spec prefix fs vs st vs' es st' ->
    walk_spec prefix (f :: fs) (fv :: vs) st (fv :: vs')
              (errField (Name f) errUnexportedDst :: es) st'
| walk_recursed prefix f fs m sub subvs vs st subvs' es1 st1 vs' es2 st2 r name :
    walked f = true ->
    Name f = r :: name -> IsUpper r = true ->
    recurses f = true -> Type_ f = TStruct m sub ->
    walk_spec (prefix ++ annotation f) sub subvs st subvs' es1 st1 ->
    walk_spec prefix fs vs st1 vs' es2 st2 ->
    walk_spec prefix (f :: fs) (VStruct subvs :: vs) st
              (VStruct subvs' :: vs') (es1 ++ es2) st2
| walk_bound prefix f fs fv vs st fv' st1 vs' es st2 r name :
    walked f = true ->
    Name f = r :: name -> IsUpper r = true ->
    recurses f = false ->
    loadVar UnmarshalText environ mapiter l (Type_ f) fv (mkFlags true false)
            (prefix ++ annotation f) st = Ok (fv', None, st1) ->
    walk_spec prefix fs vs st1 vs' es st2 ->
    walk_spec prefix (f :: fs) (fv :: vs) st (fv' :: vs') es st2
| walk_failed prefix f fs fv vs st fv' err st1 vs' es st2 r name :
    walked f = true ->
    Name f = r :: name -> IsUpper r = true ->
    recurses f = false ->
    loadVar UnmarshalText environ mapiter l (Type_ f) fv (mkFlags true false)
            (prefix ++ annotation f) st = Ok (fv', Some err, st1) ->
    walk_spec prefix fs vs st1 vs' es st2 ->
    walk_spec prefix (f :: fs) (fv :: vs) st (fv' :: vs')
              (errField (prefix ++ annotation f) err :: es) st2.

(** The walk of a nested record of type [t] by the loader returns what
    the specification words. *)
Definition walkRefines (t : type) : Prop :=
  forall v prefix st v' es st',
    loadStructAt UnmarshalText environ mapiter IsUpper l t v
                 (mkFlags true false) prefix st = Ok (v', es, st') ->
    forall m sub, t = TStruct m sub ->
    exists subvs subvs',
      v = VStruct subvs /\ v' = VStruct subvs'
      /\ walk_spec prefix sub subvs st subvs' es st'.

End WalkSpec.

(** * Properties *)

(** ** The list tokenizer *)

Lemma tokenizeLoop_app (a b : list rune) (st : tokState) :
  tokenizeLoop (a ++ b) st =
  match tokenizeLoop a st with
  | inl e => inl e
  | inr st' => tokenizeLoop b st'
  end.
Proof.
  revert st. induction a as [|r a IH]; intros st; simpl.
  - reflexivity.
  - destruct (tokenizeStep st r) as [e|st']; [reflexivity|apply IH].
Qed.

Lemma IsSpace_not_special (r : rune) :
  IsSpace r = true ->
  (r =? rune_comma) = false /\ (r =? rune_quote) = false
  /\ (r =? rune_backslash) = false /\ (r =? rune_NUL) = false.
Proof.
  unfold IsSpace, rune_comma, rune_quote, rune_backslash, rune_NUL.
  intros H.
  assert (Hr : r = 9 \/ r = 10 \/ r = 11 \/ r = 12 \/ r = 13 \/ r = 32
               \/ r = 133 \/ r = 160 \/ 255 < r).
  { destruct (N.leb_spec r 255) as [Hle|Hgt]; [|lia].
    repeat rewrite orb_true_iff in H. repeat rewrite N.eqb_eq in H. lia. }
  repeat split; apply N.eqb_neq; lia.
Qed.

(** Whitespace passes through the loop as ordinary text. *)
Lemma tokenizeLoop_spaces (ws : list rune) (sb : gostring) (fields : list gostring) :
  forallb IsSpace ws = true ->
  tokenizeLoop ws (mkTok false false sb fields)
  = inr (mkTok false false (sb ++ ws) fields).
Proof.
  revert sb. induction ws as [|r ws IH]; intros sb H; simpl in *.
  - now rewrite app_nil_r.
  - apply andb_true_iff in H as [Hr Hws].
    destruct (IsSpace_not_special r Hr) as (Hc & Hq & Hb & Hn).
    rewrite Hc, Hq, Hb, Hn. simpl.
    rewrite IH by assumption. now rewrite <- app_assoc.
Qed.

Lemma findEnd_spaces (runes : list rune) (n : nat) :
  forallb IsSpace runes = true -> (n <= List.length runes)%nat ->
  findEnd runes n = (-1)%Z.
Proof.
  intros Hall. induction n as [|m IH]; intros Hn; simpl.
  - reflexivity.
  - assert (Hm : IsSpace (nth m runes 0) = true).
    { rewrite forallb_forall in Hall. apply Hall. apply nth_In. lia. }
    rewrite Hm. apply IH. lia.
Qed.

Lemma unescape_spaces (f : gostring) :
  forallb IsSpace f = true -> unescapeSliceField f = Ok [].
Proof.
  intros H. unfold unescapeSliceField.
  rewrite findEnd_spaces by (auto; lia).
  replace (Z.to_nat (-1 + 1 - Z.of_nat (findStart f))) with O by lia.
  reflexivity.
Qed.

(** Claim C6. On the inputs the specification lists, tokenizing and then
    unescaping gives: a quoted x yields [x]; the empty string yields no
    field; [a,b] and [a, b] yield [a] and [b]; [a,b,] followed by a quoted
    [c,d] yields [a], [b] and [c,d]; [,,] fails with EmptyUnquotedField; an
    opening quote and x, never closed, fail with UnbalancedQuotes; a lone
    backslash fails with TrailingEscape. *)
Theorem list_grammar_samples :
  sliceFields (str dq ++ str "x" ++ str dq) = Ok (inr [str "x"])
  /\ sliceFields [] = Ok (inr [])
  /\ sliceFields (str "a,b") = Ok (inr [str "a"; str "b"])
  /\ sliceFields (str "a, b") = Ok (inr [str "a"; str "b"])
  /\ sliceFields (str "a,b, " ++ str dq ++ str "c,d" ++ str dq)
     = Ok (inr [str "a"; str "b"; str "c,d"])
  /\ sliceFields (str ",,") = Ok (inl EmptyUnquotedField)
  /\ sliceFields (str dq ++ str "x") = Ok (inl UnbalancedQuotes)
  /\ sliceFields (str bs) = Ok (inl TrailingEscape).
Proof. repeat split; reflexivity. Qed.

(** Claim C4, refuted as stated: in [a, ,b] the second split field is a
    single space, so it is empty after trimming and holds no quote, and the
    list is accepted with an empty second element. *)
Lemma whitespace_field_accepted :
  tokenizeSliceString (str "a, ,b") = inr [str "a"; str " "; str "b"]
  /\ forallb IsSpace (str " ") = true
  /\ existsb (N.eqb rune_quote) (str " ") = false
  /\ sliceFields (str "a, ,b") = Ok (inr [str "a"; []; str "b"]).
Proof. repeat split; reflexivity. Qed.

(** Claim C4, amended. When the tokenizer stands at a field boundary
    (outside quotes, not escaped, nothing read into the current field), a
    comma makes list parsing fail with EmptyUnquotedField whatever follows;
    a field of whitespace only is split off without error and unescapes to
    the empty element, as the explicit empty quoted span does. *)
Theorem empty_field_rule (s1 s2 ws : gostring) (st : tokState) :
  tokenizeLoop s1 tok0 = inr st ->
  tok_q st = false -> tok_esc st = false -> tok_sb st = [] ->
  ws <> [] -> forallb IsSpace ws = true ->
  sliceFields (s1 ++ rune_comma :: s2) = Ok (inl EmptyUnquotedField)
  /\ tokenizeLoop (s1 ++ ws ++ [rune_comma]) tok0
     = inr (mkTok false false [] (tok_fields st ++ [ws]))
  /\ unescapeSliceField ws = Ok []
  /\ sliceFields (str dq ++ str dq) = Ok (inr [[]]).
Proof.
  intros Hs1 Hq He Hsb Hne Hws.
  destruct st as [q esc sb fields]; simpl in *; subst.
  repeat split.
  - unfold sliceFields, tokenizeSliceString. fold tok0.
    rewrite tokenizeLoop_app, Hs1. reflexivity.
  - rewrite tokenizeLoop_app, Hs1, tokenizeLoop_app.
    rewrite tokenizeLoop_spaces by assumption. simpl.
    destruct ws as [|r ws]; [contradiction|]. reflexivity.
  - now apply unescape_spaces.
Qed.

Lemma empty_field_rule_witness :
  sliceFields (str "a," ++ rune_comma :: str "b") = Ok (inl EmptyUnquotedField)
  /\ tokenizeLoop (str "a," ++ str " " ++ [rune_comma]) tok0
     = inr (mkTok false false [] ([str "a"] ++ [str " "]))
  /\ unescapeSliceField (str " ") = Ok []
  /\ sliceFields (str dq ++ str dq) = Ok (inr [[]]).
Proof.
  apply (@empty_field_rule (str "a,") (str "b") (str " ")
           (mkTok false false [] [str "a"])).
  - reflexivity.
  - reflexivity.
  - reflexivity.
  - reflexivity.
  - discriminate.
  - reflexivity.
Defined.

(** A field whose last rune is a backslash (the second of an escaped pair)
    sends [unescapeSliceField] past the end of [runes]. *)
Example unescape_trailing_backslash_panics :
  tokenizeSliceString (str "a" ++ str bs ++ str bs) = inr [str "a" ++ str bs ++ str bs]
  /\ unescapeSliceField (str "a" ++ str bs ++ str bs) = Panic IndexOutOfRange.
Proof. split; reflexivity. Qed.

Lemma kind_eqb_refl k : kind_eqb k k = true.
Proof. destruct k as [[]| | | |]; reflexivity. Qed.

Lemma kind_eqb_eq k k' : kind_eqb k k' = true -> k = k'.
Proof.
  destruct k as [[]| | | |], k' as [[]| | | |]; simpl; intros H;
    try discriminate; reflexivity.
Qed.

Lemma kind_eqb_neq k k' : k <> k' -> kind_eqb k k' = false.
Proof.
  intros H. destruct (kind_eqb k k') eqn:E; [|reflexivity].
  apply kind_eqb_eq in E. contradiction.
Qed.

Lemma update_at_length {A} (done : list A) (z x : A) (tail : list A) :
  update (done ++ z :: tail) (List.length done) x = (done ++ [x]) ++ tail.
Proof.
  induction done as [|d done IH]; simpl; [reflexivity|]. now rewrite IH.
Qed.

Lemma nth_error_at_length {A} (done : list A) (z : A) (tail : list A) :
  nth_error (done ++ z :: tail) (List.length done) = Some z.
Proof. induction done as [|d done IH]; simpl; auto. Qed.

(** Induction on types that reaches the field types of a struct. *)
Lemma type_fields_ind (P : type -> Prop) :
  (forall n b, P (TBasic n b)) ->
  (forall e, P e -> P (TPtr e)) ->
  (forall n e, P e -> P (TSlice n e)) ->
  (forall n k e, P k -> P e -> P (TMap n k e)) ->
  (forall n fs, Forall (fun f => P (Type_ f)) fs -> P (TStruct n fs)) ->
  forall t, P t.
Proof.
  intros Hb Hp Hs Hm Hst. fix IH 1. intros t.
  destruct t as [n b|e|n e|n k e|n fs].
  - apply Hb.
  - apply Hp, IH.
  - apply Hs, IH.
  - apply Hm; apply IH.
  - apply Hst. induction fs as [|f fs IHfs]; constructor; [apply IH|exact IHfs].
Qed.

(** ** The value binder *)

Section Binder.

Variable UnmarshalText : type -> option Unmarshaler.
Variable l : loader.

Lemma parseAndSetValue_unfold (rt : type) (s : gostring) (v : value) (fl : flags) :
  parseAndSetValue UnmarshalText l rt s v fl =
  (do otu <- textUnmarshaler UnmarshalText rt v fl ;
   match otu with
   | Some tu => tu s
   | None =>
       match parserFor l rt with
       | Some f =>
           match f s with
           | inr x => do x' <- reflectSet fl x ; Ok (x', None)
           | inl err => Ok (v, Some err)
           end
       | None =>
           if kind_eqb (Kind rt) Slice
           then parseAndSetSlice UnmarshalText l rt s v fl
           else Ok (v, Some (errNotSupported rt))
       end
   end)%outcome.
Proof. destruct rt; reflexivity. Qed.

Abbreviation bindValue := (parseAndSetValue UnmarshalText l).

Lemma unescapeAll_Forall2 raws : forall fields,
  Forall2 (fun raw f => unescapeSliceField raw = Ok f) raws fields ->
  unescapeAll raws = Ok fields.
Proof.
  induction raws as [|raw raws IH]; intros fields H; inversion H; subst;
    [reflexivity|].
  simpl. match goal with E : unescapeSliceField _ = _ |- _ => rewrite E end.
  simpl. now rewrite (IH _ ltac:(eassumption)).
Qed.

(** The loop over [sl] on fields that bind, up to the first that does
    not. *)
Lemma setItems_run parse (z : value) good : forall xs,
  Forall2 (fun f x => parse f z = Ok (x, None)) good xs ->
  forall rest done,
    setItems parse (good ++ rest) (List.length done)
             (done ++ repeat z (List.length (good ++ rest)))
    = setItems parse rest (List.length (done ++ xs))
               ((done ++ xs) ++ repeat z (List.length rest)).
Proof.
  induction 1 as [|f x good xs Hf _ IH]; intros rest done.
  - simpl. now rewrite app_nil_r.
  - simpl. rewrite nth_error_at_length. unfold obind. rewrite Hf. simpl.
    rewrite update_at_length.
    replace (S (List.length done)) with (List.length (done ++ [x]))
      by (rewrite length_app; simpl; lia).
    rewrite IH. now rewrite <- !app_assoc.
Qed.

Lemma textUnmarshaler_capable rt v fl :
  CanInterface fl = true ->
  exists tu,
    textUnmarshaler UnmarshalText rt v fl = Ok tu
    /\ match tu with Some _ => true | None => false end
       = capable UnmarshalText rt (CanAddr fl).
Proof.
  intros Hi. unfold textUnmarshaler. rewrite Hi. cbn [negb].
  destruct rt as [n b|e|n e|n k e|n fs];
    try (unfold methodSet, capable;
         destruct (UnmarshalText _) as [m|];
         [destruct (um_recv m)|]; destruct (CanAddr fl); cbn [negb];
         eexists; split; reflexivity).
  destruct e as [n b|e|n e|n k e|n fs];
    try (unfold methodSet, capable;
         destruct (UnmarshalText _) as [m|]; [|destruct (CanAddr fl)];
         cbn [negb]; eexists; split; reflexivity).
  unfold methodSet, capable. destruct (CanAddr fl); cbn [negb];
    eexists; split; reflexivity.
Qed.

Lemma capable_textUnmarshaler rt v fl :
  CanInterface fl = true ->
  capable UnmarshalText rt (CanAddr fl) = false ->
  textUnmarshaler UnmarshalText rt v fl = Ok None.
Proof.
  intros Hi Hc.
  destruct (@textUnmarshaler_capable rt v fl Hi) as (tu & -> & Htu).
  rewrite Hc in Htu. now destruct tu.
Qed.



End Binder.

(** ** The record walker *)

Ltac munfold := unfold bind, ret, lift, emit, reflectNew in *.

Ltac case_scrutinee :=
  match goal with
  | |- context [match ?x with _ => _ end] =>
      lazymatch x with
      | context [match _ with _ => _ end] => fail
      | _ => destruct x eqn:?
      end
  end.

Section Walker.

Variable UnmarshalText : type -> option Unmarshaler.
Variable environ : list (gostring * gostring).
Variable mapiter : list (gostring * gostring) -> list (gostring * gostring).
Variable IsUpper : rune -> bool.
Variable l : loader.

Abbreviation loadVar := (loadVar UnmarshalText environ mapiter l).
Abbreviation loadField := (loadField UnmarshalText environ mapiter IsUpper l).
Abbreviation loadFields := (loadFields UnmarshalText environ mapiter IsUpper l).
Abbreviation loadStructAt := (loadStructAt UnmarshalText environ mapiter IsUpper l).
Abbreviation loadStruct := (loadStruct UnmarshalText environ mapiter IsUpper l).
Abbreviation loader_Load := (loader_Load UnmarshalText environ mapiter IsUpper l).
Abbreviation walk_spec := (walk_spec UnmarshalText environ mapiter IsUpper l).
Abbreviation recurses := (recurses UnmarshalText l).
Abbreviation walkRefines := (walkRefines UnmarshalText environ mapiter IsUpper l).

Lemma loadField_acc rec fl prefix f fv acc st :
  loadField rec fl prefix f fv acc st
  = withErrs acc (loadField rec fl prefix f fv [] st).
Proof.
  unfold loadField, withErrs. munfold.
  repeat (case_scrutinee; simpl; try rewrite app_nil_r; try reflexivity).
Qed.

Lemma loadFields_acc rec fl prefix fields vs acc st :
  loadFields rec fl prefix fields vs acc st
  = withErrs acc (loadFields rec fl prefix fields vs [] st).
Proof.
  revert vs acc st.
  induction fields as [|f fields IH]; intros [|fv vs] acc st;
    try reflexivity; simpl.
  - unfold withErrs, ret. now rewrite app_nil_r.
  - unfold bind at 1 3. rewrite loadField_acc.
    destruct (loadField (rec (Type_ f)) fl prefix f fv [] st)
      as [[[fv' e1] st1]|p]; simpl; [|reflexivity].
    unfold bind, ret. rewrite (IH vs (acc ++ e1)), (IH vs e1).
    destruct (loadFields rec fl prefix fields vs [] st1)
      as [[[vs' e2] st2]|p]; simpl; [|reflexivity].
    now rewrite app_assoc.
Qed.

(** The loop body by body: the errors of a field are followed by those of
    the remaining fields, which are walked from the state the field left,
    whatever the field reported. *)
Lemma loadFields_cons rec fl prefix f fields fv vs acc st :
  loadFields rec fl prefix (f :: fields) (fv :: vs) acc st =
  match loadField (rec (Type_ f)) fl prefix f fv [] st with
  | Panic p => Panic p
  | Ok (fv', e1, st1) =>
      match loadFields rec fl prefix fields vs [] st1 with
      | Panic p => Panic p
      | Ok (vs', e2, st2) => Ok (fv' :: vs', acc ++ e1 ++ e2, st2)
      end
  end.
Proof.
  rewrite loadFields_acc. simpl. unfold bind at 1.
  destruct (loadField (rec (Type_ f)) fl prefix f fv [] st)
    as [[[fv' e1] st1]|p]; simpl; [|reflexivity].
  unfold bind, ret. rewrite loadFields_acc.
  destruct (loadFields rec fl prefix fields vs [] st1)
    as [[[vs' e2] st2]|p]; reflexivity.
Qed.

(** On a value of kind Struct, [loadStruct] is the loop of [loadStructAt]. *)
Lemma loadStruct_struct rt v fl prefix st :
  Kind rt = Struct ->
  loadStruct rt v fl prefix st = loadStructAt rt v fl prefix st.
Proof.
  destruct rt; try discriminate. intros _.
  unfold loadStruct; simpl. munfold. simpl.
  destruct (CanAddr fl); simpl; [|reflexivity].
  destruct v; try reflexivity. munfold.
  destruct (loadFields _ _ _ _ _ _ _) as [[[vs' e] st']|p]; reflexivity.
Qed.

(** One iteration of the loop on a field of a writable record. *)
Lemma loadField_settable rec prefix f fv st :
  loadField rec (mkFlags true false) prefix f fv [] st =
  if negb (walked f) then Ok (fv, [], st)
  else
    match Name f with
    | [] => Panic EmptyFieldName
    | r :: _ =>
        if negb (IsUpper r)
        then Ok (fv, [errField (Name f) errUnexportedDst], st)
        else if recurses f
        then rec fv (mkFlags true false) (prefix ++ annotation f) st
        else
          match loadVar (Type_ f) fv (mkFlags true false)
                        (prefix ++ annotation f) st with
          | Panic p => Panic p
          | Ok (fv', None, st1) => Ok (fv', [], st1)
          | Ok (fv', Some err, st1) =>
              Ok (fv', [errField (prefix ++ annotation f) err], st1)
          end
    end.
Proof.
  unfold loadField, walked, annotation, recurses, isExported.
  destruct (Tag f) as [t|]; cbn [negb andb].
  - destruct (Name f) as [|r name]; [reflexivity|].
    unfold bind at 1. unfold lift at 1.
    destruct (IsUpper r); cbn [negb orb]; [|reflexivity].
    unfold CanInterface, CanSet. cbn [flagAddr flagRO negb andb orb].
    destruct (@textUnmarshaler_capable UnmarshalText (Type_ f) fv (mkFlags true false) eq_refl)
      as (tu & -> & Hc).
    unfold bind at 1. unfold lift at 1.
    unfold CanAddr in Hc. cbn [flagAddr] in Hc. rewrite <- Hc.
    destruct (kind_eqb (Kind (Type_ f)) Struct && negb (hasParser l (Type_ f))
              && negb match tu with Some _ => true | None => false end).
    + unfold bind, ret. destruct (rec _ _ _ _) as [[[x e] st1]|p]; reflexivity.
    + unfold bind, ret.
      destruct (loadVar _ _ _ _ _) as [[[x [err|]] st1]|p]; reflexivity.
  - destruct (kind_eqb (Kind (Type_ f)) Struct && Anonymous f) eqn:Ea;
      cbn [negb]; [|reflexivity].
    destruct (Name f) as [|r name]; [reflexivity|].
    unfold bind at 1. unfold lift at 1.
    destruct (IsUpper r); cbn [negb orb]; [|reflexivity].
    unfold CanInterface, CanSet. cbn [flagAddr flagRO negb andb orb].
    destruct (@textUnmarshaler_capable UnmarshalText (Type_ f) fv (mkFlags true false) eq_refl)
      as (tu & -> & Hc).
    unfold bind at 1. unfold lift at 1.
    unfold CanAddr in Hc. cbn [flagAddr] in Hc. rewrite <- Hc.
    destruct (kind_eqb (Kind (Type_ f)) Struct && negb (hasParser l (Type_ f))
              && negb match tu with Some _ => true | None => false end).
    + unfold bind, ret. destruct (rec _ _ _ _) as [[[x e] st1]|p]; reflexivity.
    + unfold bind, ret.
      destruct (loadVar _ _ _ _ _) as [[[x [err|]] st1]|p]; reflexivity.
Qed.

Lemma loadFields_walk fields :
  Forall (fun f => walkRefines (Type_ f)) fields ->
  forall vs prefix st vs' es st',
    loadFields loadStructAt (mkFlags true false) prefix fields vs [] st
    = Ok (vs', es, st') ->
    walk_spec prefix fields vs st vs' es st'.
Proof.
  induction fields as [|f fields IH]; intros Hall vs prefix st vs' es st' H.
  - destruct vs; [|discriminate]. injection H as <- <- <-. constructor.
  - destruct vs as [|fv vs]; [discriminate|].
    inversion Hall as [|? ? Hf Hfs]; subst.
    rewrite loadFields_cons in H.
    destruct (loadField _ _ _ _ _ _ _) as [[[fv' e1] st1]|p] eqn:E1;
      [|discriminate].
    destruct (loadFields _ _ _ _ _ _ _) as [[[vs1 e2] st2]|p] eqn:E2;
      [|discriminate].
    injection H as <- <- <-. simpl.
    apply (IH Hfs) in E2.
    rewrite loadField_settable in E1.
    destruct (walked f) eqn:Ew; cbn [negb] in E1.
    2:{ injection E1 as <- <- <-. now apply walk_skipped. }
    destruct (Name f) as [|r name] eqn:En; [discriminate|].
    destruct (IsUpper r) eqn:Eu; cbn [negb] in E1.
    2:{ injection E1 as <- <- <-. rewrite <- En.
        eapply walk_unexported; eassumption. }
    destruct (recurses f) eqn:Er.
    + assert (Hk : exists m sub, Type_ f = TStruct m sub).
      { unfold recurses in Er.
        apply andb_true_iff in Er as [Er _].
        apply andb_true_iff in Er as [Er _].
        destruct (Type_ f); try discriminate. eauto. }
      destruct Hk as (m & sub & Ht).
      destruct (Hf _ _ _ _ _ _ E1 m sub Ht) as (subvs & subvs' & -> & -> & Hw).
      eapply walk_recursed; eassumption.
    + destruct (loadVar _ _ _ _ _) as [[[x [err|]] st0]|p] eqn:Ev;
        [| |discriminate]; injection E1 as <- <- <-.
      * eapply walk_failed; eassumption.
      * eapply walk_bound; eassumption.
Qed.

Lemma loadStructAt_walk : forall t, walkRefines t.
Proof.
  induction t as [n b|e _|n e _|n k e _ _|n fs IH] using type_fields_ind;
    intros v prefix st v' es st' H m sub Ht; try discriminate.
  injection Ht as -> ->. simpl in H.
  destruct v; try discriminate.
  unfold bind, ret in H.
  destruct (loadFields _ _ _ _ _ _ _) as [[[vs' e1] st1]|p] eqn:E;
    [|discriminate].
  injection H as <- <- <-.
  eexists. eexists. split; [reflexivity|]. split; [reflexivity|].
  now apply loadFields_walk.
Qed.

Lemma walk_loadFields prefix fields vs st vs' es st' :
  walk_spec prefix fields vs st vs' es st' ->
  loadFields loadStructAt (mkFlags true false) prefix fields vs [] st
  = Ok (vs', es, st').
Proof.
  induction 1 as [prefix st
                 |prefix f fs fv vs st vs' es st' Hw _ IH
                 |prefix f fs fv vs st vs' es st' r name Hw Hn Hu _ IH
                 |prefix f fs m sub subvs vs st subvs' es1 st1 vs' es2 st2 r name
                    Hw Hn Hu Hr Ht _ IH1 _ IH2
                 |prefix f fs fv vs st fv' st1 vs' es st2 r name Hw Hn Hu Hr Hv _ IH
                 |prefix f fs fv vs st fv' err st1 vs' es st2 r name Hw Hn Hu Hr Hv _ IH];
    [reflexivity| | | | |];
    rewrite loadFields_cons, loadField_settable, Hw; cbn [negb].
  - now rewrite IH.
  - rewrite Hn, Hu. cbn [negb]. now rewrite IH.
  - rewrite Hn, Hu, Hr, Ht. cbn [negb]. simpl.
    unfold bind, ret. rewrite IH1. simpl. now rewrite IH2.
  - rewrite Hn, Hu, Hr, Hv. cbn [negb]. now rewrite IH.
  - rewrite Hn, Hu, Hr, Hv. cbn [negb]. now rewrite IH.
Qed.

(** [Load] on a pointer to a record is the loop over its fields. *)
Lemma loader_Load_record m fs a vs prefix st :
  loader_Load (TPtr (TStruct m fs), VPtr a (VStruct vs)) prefix st =
  match loadFields loadStructAt (mkFlags true false) prefix fs vs [] st with
  | Panic p => Panic p
  | Ok (vs', es, st') =>
      Ok (VPtr a (VStruct vs'),
          match es with [] => None | _ :: _ => Some (mkLoadError es) end, st')
  end.
Proof.
  unfold loader_Load, loadStruct. simpl.
  unfold bind, ret. simpl. unfold bind, ret.
  destruct (loadFields _ _ _ _ _ _ _) as [[[vs' es] st']|p]; [|reflexivity].
  simpl. destruct es; reflexivity.
Qed.


(** The loop passes over a field with no [env] tag that is not embedded:
    the body returns its value, the errors and the state as they were, and
    the fields around it are walked as if it was not there. *)
Lemma loadFields_skip
    (rec : type -> value -> flags -> gostring -> M (value * list error))
    (fl : flags) (prefix : gostring) (f : StructField type) (fv : value)
    (fs1 fs2 : list (StructField type)) (vs1 vs2 : list value)
    (acc : list error) (st : state) :
  Tag f = None -> Anonymous f = false ->
  List.length fs1 = List.length vs1 ->
  loadField (rec (Type_ f)) fl prefix f fv acc st = Ok (fv, acc, st)
  /\ loadFields rec fl prefix (fs1 ++ f :: fs2) (vs1 ++ fv :: vs2) acc st =
     match loadFields rec fl prefix (fs1 ++ fs2) (vs1 ++ vs2) acc st with
     | Panic p => Panic p
     | Ok (vs', e, st') =>
         Ok (firstn (List.length fs1) vs' ++ fv :: skipn (List.length fs1) vs',
             e, st')
     end.
Proof.
  intros Htag Hanon Hlen.
  assert (Hskip : forall acc' st',
             loadField (rec (Type_ f)) fl prefix f fv acc' st' = Ok (fv, acc', st')).
  { intros acc' st'. unfold loadField. rewrite Htag, Hanon.
    rewrite andb_false_r. reflexivity. }
  split; [apply Hskip|].
  revert vs1 Hlen acc st.
  induction fs1 as [|f1 fs1 IH]; intros [|v1 vs1] Hlen acc st;
    try discriminate; simpl.
  - unfold bind at 1. rewrite Hskip. simpl. unfold bind, ret.
    destruct (loadFields rec fl prefix fs2 vs2 acc st)
      as [[[vs' e] st']|p]; reflexivity.
  - unfold bind, ret.
    destruct (loadField (rec (Type_ f1)) fl prefix f1 v1 acc st)
      as [[[v1' e1] st1]|p]; [|reflexivity].
    simpl. rewrite IH by (simpl in Hlen; lia).
    destruct (loadFields rec fl prefix (fs1 ++ fs2) (vs1 ++ vs2) e1 st1)
      as [[[vs' e] st']|p]; reflexivity.
Qed.


Lemma loadFields_all_skipped rec fl prefix fs : forall vs acc st,
  Forall (fun g => Tag g = None /\ Anonymous g = false) fs ->
  List.length fs = List.length vs ->
  loadFields rec fl prefix fs vs acc st = Ok (vs, acc, st).
Proof.
  induction fs as [|g fs IH]; intros [|gv vs] acc st Hall Hlen;
    try discriminate; [reflexivity|].
  inversion Hall as [|? ? [Ht Ha] Hfs]; subst.
  simpl. unfold bind at 1.
  rewrite (proj1 (@loadFields_skip rec fl prefix g gv [] [] [] [] acc st
                    Ht Ha eq_refl)).
  simpl. unfold bind, ret. rewrite IH by (auto; simpl in Hlen; lia).
  reflexivity.
Qed.

Lemma insert_back {A} (vs1 vs2 : list A) (n : nat) (x : A) :
  n = List.length vs1 ->
  firstn n (vs1 ++ vs2) ++ x :: skipn n (vs1 ++ vs2) = vs1 ++ x :: vs2.
Proof.
  intros ->. rewrite firstn_app, skipn_app, Nat.sub_diag, firstn_all, skipn_all.
  simpl. now rewrite app_nil_r.
Qed.

(** Claim C8. A field with no [env] tag that is not embedded is passed
    over by a whole [Load], and by the walk of any nested record, wherever it
    stands among the fields: errors, lookups, allocations and the other
    fields are those of the [Load] on the record without the field, whatever
    the field holds, and the field holds afterwards what it held. A record
    with only such fields comes back as it was, with no error and no call to
    [os]. *)
Theorem untagged_field_skipped
    (m : string) (f : StructField type) (fs1 fs2 : list (StructField type))
    (fv : value) (vs1 vs2 : list value) (a : addr) (fl : flags)
    (prefix : gostring) (st : state) :
  Tag f = None -> Anonymous f = false ->
  List.length fs1 = List.length vs1 ->
  loader_Load (TPtr (TStruct m (fs1 ++ f :: fs2)),
               VPtr a (VStruct (vs1 ++ fv :: vs2))) prefix st
  = match loader_Load (TPtr (TStruct m (fs1 ++ fs2)),
                       VPtr a (VStruct (vs1 ++ vs2))) prefix st with
    | Panic p => Panic p
    | Ok (v, r, st') => Ok (insertAt (List.length fs1) fv v, r, st')
    end
  /\ loadStructAt (TStruct m (fs1 ++ f :: fs2)) (VStruct (vs1 ++ fv :: vs2))
                  fl prefix st
     = match loadStructAt (TStruct m (fs1 ++ fs2)) (VStruct (vs1 ++ vs2))
                          fl prefix st with
       | Panic p => Panic p
       | Ok (v, es, st') => Ok (insertAt (List.length fs1) fv v, es, st')
       end
  /\ (forall fs vs,
        Forall (fun g => Tag g = None /\ Anonymous g = false) fs ->
        List.length fs = List.length vs ->
        loader_Load (TPtr (TStruct m fs), VPtr a (VStruct vs)) prefix st
        = Ok (VPtr a (VStruct vs), None, st)).
Proof.
  intros Htag Hanon Hlen.
  pose proof (fun rec fl' acc =>
                proj2 (@loadFields_skip rec fl' prefix f fv fs1 fs2 vs1 vs2 acc st
                         Htag Hanon Hlen)) as Hskip.
  split; [|split].
  - rewrite !loader_Load_record, Hskip.
    destruct (loadFields _ _ _ (fs1 ++ fs2) _ _ _) as [[[vs' es] st']|p];
      reflexivity.
  - simpl. destruct (CanAddr fl); cbn [negb].
    + unfold bind, ret. rewrite Hskip.
      destruct (loadFields _ _ _ (fs1 ++ fs2) _ _ _) as [[[vs' es] st']|p];
        reflexivity.
    + unfold ret. simpl. now rewrite insert_back.
  - intros fs vs Hall Hl.
    now rewrite loader_Load_record, loadFields_all_skipped.
Qed.

(** *** Indirection *)

Lemma CanSet_flags fl : CanSet fl = true -> fl = mkFlags true false.
Proof.
  destruct fl as [[|] [|]]; unfold CanSet; simpl; intros H;
    try discriminate; reflexivity.
Qed.

Lemma zero_chain n leaf :
  isChain n (zero (ptrTo n leaf)) = true
  /\ leafContent n leaf (zero (ptrTo n leaf)) = zero leaf.
Proof. destruct n; simpl; auto. Qed.

(** [follow] on an [n]-level pointer allocates what is missing and arrives
    at the leaf, with every level in place. *)
Lemma follow_ptrTo n leaf : forall v fl st,
  Kind leaf <> Ptr -> isChain n v = true -> CanSet fl = true ->
  exists plug st',
    follow (ptrTo n leaf) v fl st
    = Ok (mkFollowed leaf (leafContent n leaf v) (mkFlags true false) plug, st')
    /\ (forall x, deref n (plug x) = Some x)
    /\ trace st' = trace st.
Proof.
  induction n as [|n IH]; intros v fl st Hleaf Hchain Hset.
  - exists (fun x => x), st. simpl.
    rewrite (CanSet_flags _ Hset).
    destruct leaf; try reflexivity; simpl in *; auto. congruence.
  - simpl. destruct v; try discriminate.
    + munfold. unfold reflectSet. rewrite Hset.
      destruct (zero_chain n leaf) as [Hz1 Hz2].
      destruct (IH (zero (ptrTo n leaf)) (mkFlags true false)
                   (mkState (S (next st)) (trace st)) Hleaf Hz1 eq_refl)
        as (plug & st' & Hf & Hd & Ht).
      rewrite Hf. simpl. rewrite Hz2.
      exists (fun x => VPtr (next st) (plug x)), st'. auto.
    + munfold. rewrite (CanSet_flags _ Hset). simpl.
      destruct (IH v (mkFlags true false) st Hleaf Hchain eq_refl)
        as (plug & st' & Hf & Hd & Ht).
      rewrite Hf. simpl.
      exists (fun x => VPtr a (plug x)), st'. auto.
Qed.

Lemma textUnmarshaler_total rt v fl :
  CanInterface fl = true ->
  exists o, textUnmarshaler UnmarshalText rt v fl = Ok o.
Proof.
  intros H. unfold textUnmarshaler. rewrite H. cbn [negb].
  destruct (methodSet UnmarshalText rt); [eauto|].
  destruct (negb (CanAddr fl)); [eauto|].
  destruct (methodSet UnmarshalText (TPtr rt)); eauto.
Qed.

(** [loadVar] on a pointer chain: follow, then one lookup. *)
Lemma loadVar_ptrTo (n : nat) (leaf : type) (v : value) (fl : flags)
    (name : gostring) (st : state) :
  Kind leaf <> Ptr -> Kind leaf <> Map ->
  hasParser l (ptrTo n leaf) = false ->
  isChain n v = true -> CanSet fl = true ->
  exists plug st',
    (forall x, deref n (plug x) = Some x)
    /\ trace st' = trace st ++ [LookupEnv name]
    /\ loadVar (ptrTo n leaf) v fl name st =
       match getenv environ name with
       | None => Ok (plug (leafContent n leaf v), Some errVariableMissing, st')
       | Some s =>
           match parseAndSetValue UnmarshalText l leaf s (leafContent n leaf v)
                   (mkFlags true false) with
           | Ok (x, e) => Ok (plug x, option_map (errCannotParse s leaf) e, st')
           | Panic p => Panic p
           end
       end.
Proof.
  intros Hleaf Hmap Hparser Hchain Hset.
  destruct (follow_ptrTo n leaf v fl st Hleaf Hchain Hset)
    as (plug & st1 & Hf & Hd & Ht).
  exists plug, (mkState (next st1) (trace st1 ++ [LookupEnv name])).
  split; [exact Hd|]. split; [simpl; now rewrite Ht|].
  unfold loadVar, followUnlessParsed. rewrite Hparser. cbn [negb].
  unfold bind at 1. rewrite Hf. cbn [f_type f_val f_flags f_plug].
  destruct (textUnmarshaler_total leaf (leafContent n leaf v)
              (mkFlags true false) eq_refl) as [o Ho].
  unfold bind at 1. unfold lift at 1. rewrite Ho.
  rewrite (kind_eqb_neq Hmap), andb_false_r.
  unfold lookupEnv. munfold.
  destruct (getenv environ name) as [s|]; [|reflexivity].
  destruct (parseAndSetValue UnmarshalText l leaf s (leafContent n leaf v)
              (mkFlags true false)) as [[x e]|p]; reflexivity.
Qed.

(** Claim C3, amended. A field of [n] levels of pointer to a leaf type
    (not a map, the pointer type itself without a registered parser) is
    first followed, which puts every one of the [n] levels in place, and
    then looked up once. If the name is present and the leaf binds, the leaf
    holds the bound value behind the [n] pointers; if the name is absent the
    result is the variable-missing error, and the field still holds the
    complete chain, down to the leaf as it was, or to a zero leaf where a
    level was nil. *)
Theorem pointer_field_binding (n : nat) (leaf : type) (v : value) (fl : flags)
    (name : gostring) (st : state) :
  Kind leaf <> Ptr -> Kind leaf <> Map ->
  hasParser l (ptrTo n leaf) = false ->
  isChain n v = true -> CanSet fl = true ->
  exists plug st',
    (forall x, deref n (plug x) = Some x)
    /\ trace st' = trace st ++ [LookupEnv name]
    /\ loadVar (ptrTo n leaf) v fl name st =
       match getenv environ name with
       | None => Ok (plug (leafContent n leaf v), Some errVariableMissing, st')
       | Some s =>
           match parseAndSetValue UnmarshalText l leaf s (leafContent n leaf v)
                   (mkFlags true false) with
           | Ok (x, e) => Ok (plug x, option_map (errCannotParse s leaf) e, st')
           | Panic p => Panic p
           end
       end.
Proof. apply loadVar_ptrTo. Qed.

Lemma hasParser_parserFor rt : hasParser l rt = false -> parserFor l rt = None.
Proof.
  unfold hasParser, parserFor. destruct (parsers l rt); [discriminate|reflexivity].
Qed.

(** A struct with no capability and no parser is not a type the binder can
    coerce a string into. *)
Lemma parseAndSetValue_plain_struct S s v :
  Kind S = Struct -> hasParser l S = false -> UnmarshalText S = None ->
  parseAndSetValue UnmarshalText l S s v (mkFlags true false)
  = Ok (v, Some (errNotSupported S)).
Proof.
  intros HS Hp Hu. rewrite parseAndSetValue_unfold.
  unfold textUnmarshaler. cbn [CanInterface CanAddr flagRO flagAddr negb].
  destruct S; try discriminate.
  unfold methodSet. rewrite Hu. cbn [obind].
  rewrite (hasParser_parserFor _ Hp). reflexivity.
Qed.

(** Claim C9, amended. An annotated, exported field whose type is a pointer
    to a struct, where the struct has no registered parser and no
    [UnmarshalText] capability and the pointer type has no registered parser
    either, is never walked as a nested record, whatever the recursive call
    would do: the loop body allocates the struct if the pointer was nil,
    looks the qualified name up once, and reports the variable-missing error
    when the name is absent and the unsupported-type parse error when it is
    present. *)
Theorem pointer_to_struct_field
    (fl : flags) (prefix : gostring) (f : StructField type) (fv : value)
    (collected : list error) (st : state) (S : type) (tag : gostring) :
  Type_ f = TPtr S -> Kind S = Struct ->
  Tag f = Some tag -> isExported IsUpper f = Ok true ->
  CanSet fl = true -> isChain 1 fv = true ->
  hasParser l (TPtr S) = false -> hasParser l S = false ->
  UnmarshalText S = None ->
  exists fv' st',
    (forall rec,
        loadField rec fl prefix f fv collected st
        = Ok (fv',
              collected ++
              [errField (prefix ++ tag)
                 match getenv environ (prefix ++ tag) with
                 | None => errVariableMissing
                 | Some s => errCannotParse s S (errNotSupported S)
                 end],
              st'))
    /\ trace st' = trace st ++ [LookupEnv (prefix ++ tag)]
    /\ deref 1 fv' = Some (leafContent 1 S fv).
Proof.
  intros Hty HS Htag Hexp Hset Hchain HpP HpS Hu.
  assert (HnP : Kind S <> Ptr) by (rewrite HS; discriminate).
  assert (HnM : Kind S <> Map) by (rewrite HS; discriminate).
  destruct (loadVar_ptrTo 1 S fv (mkFlags true false) (prefix ++ tag) st
              HnP HnM HpP Hchain eq_refl) as (plug & st' & Hd & Ht & Hl).
  exists (plug (leafContent 1 S fv)), st'.
  split; [|split; [exact Ht | apply Hd]].
  intros rec. unfold loadField.
  rewrite Htag, Hty, Hexp. rewrite (CanSet_flags _ Hset).
  cbn [negb andb orb Kind kind_eqb flagAddr flagRO CanInterface CanSet].
  unfold bind at 1. unfold lift at 1.
  destruct (textUnmarshaler_total (TPtr S) fv (mkFlags true false) eq_refl)
    as [o Ho].
  cbn [negb andb orb flagAddr flagRO CanInterface CanSet].
  unfold bind at 1. unfold lift at 1. rewrite Ho.
  unfold bind at 1. simpl ptrTo in Hl. rewrite Hl.
  destruct (getenv environ (prefix ++ tag)) as [s|]; [|reflexivity].
  rewrite (parseAndSetValue_plain_struct s _ HS HpS Hu). reflexivity.
Qed.

(** *** Calls to [os] *)

Lemma silent_ret {A} (a : A) : silent (ret a).
Proof. intros st a' st' H. injection H as _ <-. reflexivity. Qed.

Lemma silent_lift {A} (o : outcome A) : silent (lift o).
Proof.
  intros st a st' H. unfold lift in H. destruct o; [|discriminate].
  injection H as _ <-. reflexivity.
Qed.

Lemma silent_bind {A B} (m : M A) (k : A -> M B) :
  silent m -> (forall a, silent (k a)) -> silent (bind m k).
Proof.
  intros Hm Hk st b st' H. unfold bind in H.
  destruct (m st) as [[a st1]|p] eqn:E; [|discriminate].
  rewrite (Hk a _ _ _ H). eapply Hm; eassumption.
Qed.

Lemma silent_reflectNew : silent reflectNew.
Proof. intros st a st' H. injection H as _ <-. reflexivity. Qed.

Lemma follow_silent rt : forall v fl, silent (follow rt v fl).
Proof.
  induction rt; intros v fl; simpl; try apply silent_ret.
  destruct v; try apply silent_lift.
  - apply silent_bind; [apply silent_reflectNew|intros a].
    apply silent_bind; [apply silent_lift|intros _].
    apply silent_bind; [apply IHrt|intros r; apply silent_ret].
  - apply silent_bind; [apply IHrt|intros r; apply silent_ret].
Qed.

Lemma bindFresh_silent t raw : silent (bindFresh UnmarshalText l t raw).
Proof.
  unfold bindFresh.
  apply silent_bind; [apply silent_reflectNew|intros _].
  apply silent_bind; [apply follow_silent|intros r].
  apply silent_bind; [apply silent_lift|intros res; apply silent_ret].
Qed.

Lemma mapEntries_silent mapName kt vt vars :
  forall dstMap, silent (mapEntries UnmarshalText l mapName kt vt vars dstMap).
Proof.
  induction vars as [|[varName valStr] rest IH]; intros dstMap; simpl.
  - apply silent_ret.
  - apply silent_bind; [apply bindFresh_silent|intros key].
    destruct (snd key); [apply silent_ret|].
    apply silent_bind; [apply bindFresh_silent|intros val].
    destruct (snd val); [apply silent_ret|apply IH].
Qed.

Lemma parseAndSetMap_trace mapName rt v fl st res st' :
  parseAndSetMap UnmarshalText environ mapiter l mapName rt v fl st = Ok (res, st') ->
  trace st' = trace st ++ [Environ].
Proof.
  destruct rt; simpl; try discriminate.
  unfold varsPrefixed, bind, emit, ret, lift. simpl.
  set (vars := mapiter _). set (st1 := mkState _ _).
  destruct (mapEntries UnmarshalText l mapName rt1 rt2 vars [] st1)
    as [[r st2]|p] eqn:E; [|discriminate].
  apply mapEntries_silent in E. simpl in E.
  destruct (snd r).
  - intros H. injection H as _ <-. exact E.
  - destruct (reflectSet fl (VMap (fst r))); [|discriminate].
    intros H. injection H as _ <-. exact E.
Qed.

(** Claim C5, amended. When the target that the indirection rule arrives
    at is a map and neither it nor its address has the [UnmarshalText]
    capability, [loadVar] is [parseAndSetMap] on that target, and the only
    call it makes to [os] is the one [os.Environ] of the scanner: the
    qualified name itself is never looked up. *)
Theorem map_target_uses_scanner (rt : type) (v : value) (fl : flags)
    (name : gostring) (st : state) (r : followed) (st1 : state) :
  followUnlessParsed l rt v fl st = Ok (r, st1) ->
  Kind (f_type r) = Map ->
  textUnmarshaler UnmarshalText (f_type r) (f_val r) (f_flags r) = Ok None ->
  loadVar rt v fl name st =
    match parseAndSetMap UnmarshalText environ mapiter l name
            (f_type r) (f_val r) (f_flags r) st1 with
    | Ok (res, st2) =>
        Ok (f_plug r (fst res),
            option_map (errCannotParseMap (f_type r)) (snd res), st2)
    | Panic p => Panic p
    end
  /\ (forall res st2,
        loadVar rt v fl name st = Ok (res, st2) ->
        trace st2 = trace st ++ [Environ]).
Proof.
  intros Hf Hk Htu.
  assert (Hst : trace st1 = trace st).
  { unfold followUnlessParsed in Hf. destruct (negb (hasParser l rt)).
    - eapply follow_silent; eassumption.
    - eapply silent_ret; eassumption. }
  assert (Heq : loadVar rt v fl name st =
    match parseAndSetMap UnmarshalText environ mapiter l name
            (f_type r) (f_val r) (f_flags r) st1 with
    | Ok (res, st2) =>
        Ok (f_plug r (fst res),
            option_map (errCannotParseMap (f_type r)) (snd res), st2)
    | Panic p => Panic p
    end).
  { unfold loadVar. unfold bind at 1. rewrite Hf.
    unfold bind at 1. unfold lift at 1. rewrite Htu.
    rewrite Hk. cbn [andb kind_eqb]. unfold bind, ret.
    destruct (parseAndSetMap _ _ _ _ _ _ _ _ _) as [[res st2]|p]; reflexivity. }
  split; [exact Heq|].
  intros res st2 H. rewrite Heq in H.
  destruct (parseAndSetMap _ _ _ _ _ _ _ _ _) as [[res' st2']|p] eqn:E;
    [|discriminate].
  injection H as _ <-. apply parseAndSetMap_trace in E. now rewrite E, Hst.
Qed.

(** *** Collections *)

Lemma mapassign_fresh (m : list (value * value)) k v :
  Forall (fun a => go_eqb (fst a) k = false) m ->
  mapassign go_eqb m k v = m ++ [(k, v)].
Proof.
  induction m as [|[k' v'] m IH]; intros H; simpl; [reflexivity|].
  inversion H as [|? ? Hk Hm]; subst. simpl in Hk. rewrite Hk.
  now rewrite IH.
Qed.

Lemma setAll_distinct kvs : forall m0,
  distinctKeys kvs ->
  Forall (fun a => Forall (fun kv => go_eqb (fst a) (fst kv) = false) kvs) m0 ->
  setAll kvs m0 = m0 ++ kvs.
Proof.
  induction kvs as [|[k v] kvs IH]; intros m0 Hd Hm; simpl.
  - now rewrite app_nil_r.
  - destruct Hd as [Hkv Hd]. unfold setAll in *. simpl.
    rewrite mapassign_fresh.
    + rewrite IH; [now rewrite <- app_assoc|assumption|].
      apply Forall_app. split.
      * eapply Forall_impl; [|exact Hm]. intros a Ha.
        now inversion Ha.
      * constructor; [exact Hkv|constructor].
    + eapply Forall_impl; [|exact Hm]. intros a Ha. now inversion Ha.
Qed.

Lemma mapEntries_ok mapName kt vt vars : forall m0 st m st',
  mapEntries UnmarshalText l mapName kt vt vars m0 st = Ok (m, None, st') ->
  exists kvs,
    Forall2 (entryOf UnmarshalText l mapName kt vt) vars kvs
    /\ m = setAll kvs m0.
Proof.
  induction vars as [|[varName valStr] rest IH]; intros m0 st m st' H; simpl in H.
  - injection H as <- _. exists []. split; [constructor|reflexivity].
  - unfold bind in H.
    destruct (bindFresh UnmarshalText l kt _ st) as [[[k ke] s2]|p] eqn:Ek;
      [|discriminate].
    simpl in H. destruct ke; [discriminate|].
    destruct (bindFresh UnmarshalText l vt valStr s2) as [[[x xe] s3]|p] eqn:Ev;
      [|discriminate].
    simpl in H. destruct xe; [discriminate|].
    destruct (IH _ _ _ _ H) as (kvs & HF & Hm).
    exists ((k, x) :: kvs). split; [|exact Hm].
    constructor; [|exact HF]. exists st, s2, s3. split; assumption.
Qed.

Lemma parseAndSetMap_ok mapName n kt vt v fl st x st' :
  parseAndSetMap UnmarshalText environ mapiter l mapName (TMap n kt vt) v fl st
  = Ok (x, None, st') ->
  exists kvs,
    Forall2 (entryOf UnmarshalText l mapName kt vt)
            (mapiter (prefixedVars environ mapName)) kvs
    /\ x = VMap (setAll kvs []).
Proof.
  simpl. unfold varsPrefixed, bind, emit, ret, lift. simpl.
  destruct (mapEntries _ _ _ _ _ _ _ _) as [[[m e] st2]|p] eqn:E; [|discriminate].
  simpl. destruct e; [discriminate|].
  unfold reflectSet. destruct (CanSet fl); [|discriminate].
  intros H. injection H as <- _.
  destruct (mapEntries_ok _ _ _ _ _ _ E) as (kvs & HF & ->). eauto.
Qed.

Lemma parseAndSetMap_err mapName rt v fl st x err st' :
  parseAndSetMap UnmarshalText environ mapiter l mapName rt v fl st
  = Ok (x, Some err, st') ->
  x = v.
Proof.
  destruct rt; simpl; try discriminate.
  unfold varsPrefixed, bind, emit, ret, lift. simpl.
  destruct (mapEntries _ _ _ _ _ _ _ _) as [[[m e] st2]|p]; [|discriminate].
  simpl. destruct e.
  - intros H. now injection H as <- _.
  - destruct (reflectSet fl (VMap m)); discriminate.
Qed.

Lemma gostring_eqb_eq a b : gostring_eqb a b = true <-> a = b.
Proof.
  unfold gostring_eqb. destruct (list_eq_dec N.eq_dec a b); split; auto.
  discriminate.
Qed.

Lemma mapassign_absent (m : list (gostring * gostring)) name value :
  ~ In name (map fst m) ->
  mapassign gostring_eqb m name value = m ++ [(name, value)].
Proof.
  induction m as [|[k' v'] m IH]; intros H; simpl; [reflexivity|].
  destruct (gostring_eqb k' name) eqn:E.
  - apply gostring_eqb_eq in E. subst. exfalso. apply H. now left.
  - rewrite IH; [reflexivity|]. intros Hin. apply H. now right.
Qed.

(** With names that are unique, as those of an environment are, the map
    [vars] holds the entries whose name has the prefix, in their order. *)
Lemma prefixedVars_filter prefix :
  NoDup (map fst environ) ->
  prefixedVars environ prefix
  = filter (fun ev => hasPrefix (fst ev) prefix) environ.
Proof.
  unfold prefixedVars.
  assert (H : forall env acc,
             NoDup (map fst env) ->
             (forall n, In n (map fst acc) -> ~ In n (map fst env)) ->
             fold_left
               (fun (vars : list (gostring * gostring)) ev =>
                  let '(name, value) := ev in
                  if hasPrefix name prefix
                  then mapassign gostring_eqb vars name value else vars)
               env acc
             = acc ++ filter (fun ev => hasPrefix (fst ev) prefix) env).
  { induction env as [|[name value] env IH]; intros acc Hnd Hdis; simpl.
    - now rewrite app_nil_r.
    - inversion Hnd as [|? ? Hnotin Hnd']; subst.
      destruct (hasPrefix name prefix).
      + rewrite mapassign_absent.
        * rewrite IH; [now rewrite <- app_assoc|assumption|].
          intros n Hn. rewrite map_app in Hn. apply in_app_or in Hn.
          destruct Hn as [Hn|[<-|[]]]; [|exact Hnotin].
          intros Hin. apply (Hdis n Hn). now right.
        * intros Hin. apply (Hdis name Hin). now left.
      + apply IH; [assumption|].
        intros n Hn Hin. apply (Hdis n Hn). now right. }
  intros Hnd. rewrite H; auto.
Qed.

(** Go's [==] on keys is symmetric and transitive (not reflexive: a NaN
    differs from itself). *)
Lemma float_eqb_sym a b : float_eqb a b = float_eqb b a.
Proof.
  unfold float_eqb. rewrite (Z.eqb_sym a b).
  destruct (float_isNaN a), (float_isNaN b); simpl; try reflexivity.
  f_equal. apply andb_comm.
Qed.

Lemma float_eqb_trans a b c :
  float_eqb a b = true -> float_eqb b c = true -> float_eqb a c = true.
Proof.
  unfold float_eqb.
  destruct (float_isNaN a), (float_isNaN b), (float_isNaN c); simpl;
    try discriminate.
  rewrite !orb_true_iff, !andb_true_iff, !Z.eqb_eq.
  intros [->|[Ha Hb]] [->|[Hb' Hc]]; auto.
Qed.

Lemma gostring_eqb_sym a b : gostring_eqb a b = gostring_eqb b a.
Proof.
  destruct (gostring_eqb a b) eqn:E1, (gostring_eqb b a) eqn:E2; auto.
  - apply gostring_eqb_eq in E1. subst.
    rewrite (proj2 (gostring_eqb_eq b b) eq_refl) in E2. discriminate.
  - apply gostring_eqb_eq in E2. subst.
    rewrite (proj2 (gostring_eqb_eq a a) eq_refl) in E1. discriminate.
Qed.

Lemma go_eqb_sym : forall a b, go_eqb a b = go_eqb b a.
Proof.
  fix IH 1. intros a b. destruct a, b; simpl; try reflexivity.
  - now destruct b, b0.
  - apply Z.eqb_sym.
  - apply float_eqb_sym.
  - apply gostring_eqb_sym.
  - apply Nat.eqb_sym.
  - revert fs0. induction fs as [|x xs IHxs]; intros [|y ys]; try reflexivity.
    now rewrite (IH x y), IHxs.
Qed.

Lemma go_eqb_trans : forall a b c,
  go_eqb a b = true -> go_eqb b c = true -> go_eqb a c = true.
Proof.
  fix IH 1. intros a b c. destruct a, b; simpl; try discriminate;
    destruct c; simpl; try discriminate.
  - intros H1 H2. apply Bool.eqb_prop in H1, H2. subst. apply Bool.eqb_reflx.
  - rewrite !Z.eqb_eq. congruence.
  - apply float_eqb_trans.
  - rewrite !gostring_eqb_eq. congruence.
  - auto.
  - rewrite !Nat.eqb_eq. congruence.
  - revert fs0 fs1.
    induction fs as [|x xs IHxs]; intros [|y ys] [|z zs]; try discriminate; auto.
    rewrite !andb_true_iff. intros [H1 H1'] [H2 H2']. split.
    + exact (IH x y z H1 H2).
    + exact (IHxs ys zs H1' H2').
Qed.

Lemma mapassign_Forall (P : value * value -> Prop) m k v :
  Forall P m -> P (k, v) -> Forall P (mapassign go_eqb m k v).
Proof.
  induction m as [|[k' v'] m IH]; intros Hm Hk; simpl.
  - constructor; [exact Hk|constructor].
  - inversion Hm; subst. destruct (go_eqb k' k); constructor; auto.
Qed.

(** A key equal to the key of an entry differs from what that entry's key
    differs from. *)
Lemma distinct_from_equal (m : list (value * value)) k' k :
  go_eqb k' k = true ->
  Forall (fun kv => go_eqb k' (fst kv) = false) m ->
  Forall (fun kv => go_eqb k (fst kv) = false) m
  /\ Forall (fun kv => go_eqb (fst kv) k = false) m.
Proof.
  intros Hk Hm. split; eapply Forall_impl; try exact Hm; intros [c w] Hc;
    simpl in *.
  - destruct (go_eqb k c) eqn:E; [|reflexivity].
    now rewrite (@go_eqb_trans _ _ _ Hk E) in Hc.
  - destruct (go_eqb c k) eqn:E; [|reflexivity].
    rewrite go_eqb_sym in E. now rewrite (@go_eqb_trans _ _ _ Hk E) in Hc.
Qed.

Lemma mapassign_distinct m k v :
  distinctKeys m -> distinctKeys (mapassign go_eqb m k v).
Proof.
  induction m as [|[k' v'] m IH]; intros Hd; simpl.
  - split; [constructor|exact I].
  - destruct Hd as [Hk' Hd]. destruct (go_eqb k' k) eqn:E; simpl.
    + split; [|exact Hd]. exact (proj1 (@distinct_from_equal m k' k E Hk')).
    + split; [|now apply IH]. now apply mapassign_Forall.
Qed.

Lemma filter_unmatched (m : list (value * value)) k :
  Forall (fun kv => go_eqb (fst kv) k = false) m ->
  filter (fun e => negb (go_eqb (fst e) k)) m = m.
Proof.
  induction 1 as [|kv m Hkv _ IH]; simpl; [reflexivity|].
  now rewrite Hkv, IH.
Qed.

(** An assignment drops the entry under an equal key, if there is one, and
    adds its own. *)
Lemma mapassign_perm m k v :
  distinctKeys m ->
  Permutation (mapassign go_eqb m k v)
              (filter (fun e => negb (go_eqb (fst e) k)) m ++ [(k, v)]).
Proof.
  induction m as [|[k' v'] m IH]; intros Hd; simpl; [reflexivity|].
  destruct Hd as [Hk' Hd]. destruct (go_eqb k' k) eqn:E; simpl.
  - rewrite filter_unmatched
      by exact (proj2 (@distinct_from_equal m k' k E Hk')).
    apply Permutation_cons_append.
  - constructor. now apply IH.
Qed.

Lemma survivors_snoc kvs k v :
  survivors (kvs ++ [(k, v)])
  = filter (fun e => negb (go_eqb (fst e) k)) (survivors kvs) ++ [(k, v)].
Proof.
  induction kvs as [|[a b] kvs IH]; simpl; [reflexivity|].
  rewrite existsb_app. simpl. rewrite orb_false_r.
  destruct (existsb _ kvs); simpl; [exact IH|].
  destruct (go_eqb a k); simpl; [exact IH|]. now rewrite IH.
Qed.

Lemma Permutation_filter_same {A} (f : A -> bool) (l1 l2 : list A) :
  Permutation l1 l2 -> Permutation (filter f l1) (filter f l2).
Proof.
  induction 1 as [|x l1 l2 _ IH|x y l0|l1 l2 l3 _ IH1 _ IH2]; simpl.
  - constructor.
  - destruct (f x); [now constructor|exact IH].
  - destruct (f x), (f y); try reflexivity. apply perm_swap.
  - now transitivity (filter f l2).
Qed.

(** Assigning the entries one after the other leaves the survivors, under
    keys that differ from one another. *)
Lemma setAll_survivors kvs :
  Permutation (setAll kvs []) (survivors kvs)
  /\ distinctKeys (setAll kvs []).
Proof.
  induction kvs as [|[k v] kvs [IHp IHd]] using rev_ind.
  - split; [constructor|exact I].
  - unfold setAll in *. rewrite fold_left_app. simpl. split.
    + rewrite survivors_snoc.
      etransitivity; [apply mapassign_perm, IHd|].
      apply Permutation_app_tail, Permutation_filter_same, IHp.
    + apply mapassign_distinct, IHd.
Qed.

Lemma survivors_distinct kvs : distinctKeys kvs -> survivors kvs = kvs.
Proof.
  induction kvs as [|kv kvs IH]; intros Hd; simpl; [reflexivity|].
  destruct Hd as [Hkv Hd].
  replace (existsb (fun kv' => go_eqb (fst kv) (fst kv')) kvs) with false.
  - now rewrite IH.
  - symmetry. apply not_true_is_false. intros H.
    apply existsb_exists in H as (x & Hin & Hx).
    rewrite Forall_forall in Hkv. now rewrite (Hkv x Hin) in Hx.
Qed.

(** Claim C7, amended. When the names of the environment are unique and a
    map field with prefix [prefix] binds without error, there is one bound
    entry per environment name starting with the prefix, its key the rest of
    the name bound into the key type, its value the value string bound into
    the value type, and the map holds, under keys that differ from one
    another, those of them that survive: an entry is replaced, key and
    value, by the entry of a name taken later in the iteration whose bound
    key is equal. So the map has exactly one entry per such name when the
    bound keys differ from one another. *)
Theorem map_entries_from_suffixes (prefix : gostring) (n : string)
    (kt vt : type) (v : value) (fl : flags) (st : state) (x : value)
    (st' : state) :
  NoDup (map fst environ) ->
  (forall vars, Permutation (mapiter vars) vars) ->
  parseAndSetMap UnmarshalText environ mapiter l prefix (TMap n kt vt) v fl st
  = Ok (x, None, st') ->
  exists vars kvs m,
    Permutation vars (filter (fun ev => hasPrefix (fst ev) prefix) environ)
    /\ Forall2 (entryOf UnmarshalText l prefix kt vt) vars kvs
    /\ x = VMap m
    /\ Permutation m (survivors kvs)
    /\ distinctKeys m
    /\ (distinctKeys kvs -> m = kvs).
Proof.
  intros Hnd Hperm H.
  destruct (parseAndSetMap_ok _ _ _ _ _ _ _ H) as (kvs & HF & ->).
  destruct (setAll_survivors kvs) as [Hs Hd].
  exists (mapiter (prefixedVars environ prefix)), kvs, (setAll kvs []).
  split; [|split; [exact HF|split; [reflexivity|split; [exact Hs|split;
    [exact Hd|]]]]].
  - rewrite <- (prefixedVars_filter prefix Hnd). apply Hperm.
  - intros Hk. now rewrite (@setAll_distinct kvs [] Hk (Forall_nil _)).
Qed.

(** The loop over [sl] binds every field into a zero element, in order. *)
Lemma setItems_ok parse (z : value) fields : forall done sl',
  setItems parse fields (List.length done)
           (done ++ repeat z (List.length fields)) = Ok (sl', None) ->
  exists items,
    Forall2 (fun f it => parse f z = Ok (it, None)) fields items
    /\ sl' = done ++ items.
Proof.
  induction fields as [|f rest IH]; intros done sl' H; simpl in H.
  - injection H as <-. exists []. split; [constructor|reflexivity].
  - rewrite nth_error_at_length in H. unfold obind in H.
    destruct (parse f z) as [[x e]|p] eqn:E; [|discriminate].
    simpl in H. destruct e; [discriminate|].
    rewrite update_at_length in H.
    replace (S (List.length done)) with (List.length (done ++ [x])) in H
      by (rewrite length_app; simpl; lia).
    destruct (IH _ _ H) as (items & HF & ->).
    exists (x :: items). split; [constructor; assumption|].
    now rewrite <- app_assoc.
Qed.

Lemma parseAndSetSlice_ok n et s v fl x :
  parseAndSetSlice UnmarshalText l (TSlice n et) s v fl = Ok (x, None) ->
  exists fields items,
    sliceFields s = Ok (inr fields)
    /\ Forall2 (fun f it =>
                  parseAndSetValue UnmarshalText l et f (zero et)
                    (mkFlags true false) = Ok (it, None)) fields items
    /\ x = VSlice items.
Proof.
  simpl. unfold parseAndSetSliceWith, sliceFields.
  destruct (tokenizeSliceString s) as [e|raw]; [discriminate|].
  unfold obind. destruct (unescapeAll raw) as [fields|p]; [|discriminate].
  destruct (setItems _ _ _ _) as [[sl' e]|p] eqn:E; [|discriminate].
  simpl. destruct e; [discriminate|].
  unfold reflectSet. destruct (CanSet fl); [|discriminate].
  intros H. injection H as <-.
  destruct (setItems_ok _ (zero et) fields [] E) as (items & HF & ->).
  exists fields, items. auto.
Qed.

Lemma parseAndSetSlice_err rt s v fl x err :
  parseAndSetSlice UnmarshalText l rt s v fl = Ok (x, Some err) -> x = v.
Proof.
  destruct rt; simpl; try discriminate.
  unfold parseAndSetSliceWith.
  destruct (tokenizeSliceString s) as [e|raw].
  - intros H. now injection H as <- _.
  - unfold obind. destruct (unescapeAll raw) as [fields|p]; [|discriminate].
    destruct (setItems _ _ _ _) as [[sl' e]|p]; [|discriminate].
    simpl. destruct e.
    + intros H. now injection H as <- _.
    + destruct (reflectSet fl (VSlice sl')); discriminate.
Qed.

(** Claim C10, amended. Slice and map binding build the new collection
    aside and assign it last: when either returns an error the destination
    is what it was; when a slice binds, it is replaced by exactly one
    element per tokenized field, each bound into a zero element, whatever it
    held before; when a map binds, it is replaced, whatever it held before,
    by the surviving entries among those bound from the scanned names, one
    per name, an entry being replaced by a later one under an equal key:
    that is one entry per scanned name when the bound keys differ from one
    another. *)
Theorem collections_replaced_atomically :
  (forall n et s v fl x oe,
      parseAndSetSlice UnmarshalText l (TSlice n et) s v fl = Ok (x, oe) ->
      match oe with
      | Some _ => x = v
      | None =>
          exists fields items,
            sliceFields s = Ok (inr fields)
            /\ Forall2 (fun f it =>
                          parseAndSetValue UnmarshalText l et f (zero et)
                            (mkFlags true false) = Ok (it, None)) fields items
            /\ x = VSlice items
      end)
  /\ (forall prefix n kt vt v fl st y oe st',
        parseAndSetMap UnmarshalText environ mapiter l prefix (TMap n kt vt) v fl st
        = Ok (y, oe, st') ->
        match oe with
        | Some _ => y = v
        | None =>
            exists kvs m,
              Forall2 (entryOf UnmarshalText l prefix kt vt)
                      (mapiter (prefixedVars environ prefix)) kvs
              /\ y = VMap m
              /\ Permutation m (survivors kvs)
              /\ distinctKeys m
              /\ (distinctKeys kvs -> m = kvs)
        end).
Proof.
  split.
  - intros n et s v fl x [err|] H.
    + eapply parseAndSetSlice_err; eassumption.
    + eapply parseAndSetSlice_ok; eassumption.
  - intros prefix n kt vt v fl st y [err|] st' H.
    + eapply parseAndSetMap_err; eassumption.
    + destruct (parseAndSetMap_ok _ _ _ _ _ _ _ H) as (kvs & HF & ->).
      destruct (setAll_survivors kvs) as [Hs Hd].
      exists kvs, (setAll kvs []).
      split; [exact HF|split; [reflexivity|split; [exact Hs|split;
        [exact Hd|]]]].
      intros Hk. now rewrite (@setAll_distinct kvs [] Hk (Forall_nil _)).
Qed.

End Walker.

(** ** Concrete runs *)

(** The end-to-end scenario of the specification: the good environment
    binds every field, and without [APP_INNER_FOO] the load fails naming
    exactly that qualified name. *)
Example end_to_end :
  Ex.load Ex.noMethods Ex.goodEnv (TPtr Ex.config, VPtr 1%nat (zero Ex.config))
          (str "APP_")
  = Ok (VPtr 1%nat
          (VStruct [VInt 1; VString (str "s"); VStruct [VString (str "f")]]),
        None,
        mkState 100%nat
          [LookupEnv (str "APP_INT"); LookupEnv (str "APP_STRING");
           LookupEnv (str "APP_INNER_FOO")])
  /\ exists v st,
      Ex.load Ex.noMethods (firstn 2 Ex.goodEnv)
              (TPtr Ex.config, VPtr 1%nat (zero Ex.config)) (str "APP_")
      = Ok (v,
            Some (mkLoadError
                    [errField (str "APP_INNER_FOO") errVariableMissing]),
            st).
Proof. split; [reflexivity|]. eexists. eexists. reflexivity. Qed.



Lemma untagged_field_skipped_witness :
  Ex.load Ex.noMethods
          [(str "EXAMPLE_FOO", str "1"); (str "EXAMPLE_BAR", str "b")]
          (TPtr Ex.exampleConfig,
           VPtr 1%nat (VStruct [VInt 0; VString []; VString (str "kept")]))
          (str "EXAMPLE_")
  = Ok (VPtr 1%nat (VStruct [VInt 1; VString (str "b"); VString (str "kept")]),
        None,
        mkState 100%nat
          [LookupEnv (str "EXAMPLE_FOO"); LookupEnv (str "EXAMPLE_BAR")]).
Proof.
  etransitivity.
  - apply (proj1 (@untagged_field_skipped Ex.noMethods
                    [(str "EXAMPLE_FOO", str "1"); (str "EXAMPLE_BAR", str "b")]
                    Ex.inOrder Ex.IsUpper (newLoader Ex.lib) "config" Ex.Foobar
                    [ mkField (str "Foo") (Some (str "FOO")) false t_int;
                      mkField (str "Bar") (Some (str "BAR")) false t_string ]
                    [] (VString (str "kept")) [VInt 0; VString []] [] 1%nat
                    Ex.settable (str "EXAMPLE_") Ex.st0
                    eq_refl eq_refl eq_refl)).
  - reflexivity.
Defined.

(** Claim C3, refuted as stated: with [BOOL] absent the load fails with
    the variable-missing error for the field, and the field, nil before, now
    points to a fresh [false]. *)
Lemma missing_pointer_is_materialized :
  Ex.load Ex.noMethods [] (TPtr Ex.ptrConfig, VPtr 1%nat (VStruct [VNil]))
          []
  = Ok (VPtr 1%nat (VStruct [VPtr 100%nat (VBool false)]),
        Some (mkLoadError [errField (str "BOOL") errVariableMissing]),
        mkState 101%nat [LookupEnv (str "BOOL")])
  /\ VPtr 100%nat (VBool false) <> VNil.
Proof. split; [reflexivity|discriminate]. Qed.

Lemma pointer_field_binding_witness :
  exists plug st',
    (forall x, deref 2%nat (plug x) = Some x)
    /\ trace st' = trace Ex.st0 ++ [LookupEnv (str "BOOL")]
    /\ loadVar Ex.noMethods [(str "BOOL", str "true")] Ex.inOrder
               (newLoader Ex.lib) (ptrTo 2%nat t_bool) VNil Ex.settable
               (str "BOOL") Ex.st0
       = Ok (plug (VBool true), None, st').
Proof.
  destruct (@pointer_field_binding Ex.noMethods [(str "BOOL", str "true")]
              Ex.inOrder (newLoader Ex.lib) 2%nat t_bool VNil Ex.settable
              (str "BOOL") Ex.st0)
    as (plug & st' & Hd & Ht & Hl).
  - discriminate.
  - discriminate.
  - reflexivity.
  - reflexivity.
  - reflexivity.
  - exists plug, st'. split; [exact Hd|]. split; [exact Ht|]. exact Hl.
Defined.

(** Claim C9, refuted as stated: [S] has no registered parser and no
    capability, the field is an annotated pointer to it and its name is
    present, yet with a parser registered for [*S] the load reports no error
    at all: the registered parser supplies the pointer. And when the
    annotated field is not exported, no lookup is made and the error is the
    one of unexported fields. *)
Lemma pointer_parser_binds_struct_pointer :
  hasParser Ex.withPointerParser Ex.S = false
  /\ Ex.noMethods Ex.S = None
  /\ loader_Load Ex.noMethods [(str "P", str "x")] Ex.inOrder Ex.IsUpper
                 Ex.withPointerParser
                 (TPtr Ex.holder, VPtr 1%nat (VStruct [VNil])) [] Ex.st0
     = Ok (VPtr 1%nat (VStruct [VPtr 7%nat (VStruct [])]), None,
           mkState 100%nat [LookupEnv (str "P")])
  /\ Ex.load Ex.noMethods [(str "P", str "x")]
             (TPtr Ex.hidden, VPtr 1%nat (VStruct [VNil])) []
     = Ok (VPtr 1%nat (VStruct [VNil]),
           Some (mkLoadError [errField (str "p") errUnexportedDst]),
           mkState 100%nat []).
Proof. repeat split; reflexivity. Qed.

Lemma pointer_to_struct_field_witness :
  exists fv' st',
    loadField Ex.noMethods [(str "P", str "x")] Ex.inOrder Ex.IsUpper
              (newLoader Ex.lib) (fun _ _ _ => ret (VNil, [])) Ex.settable []
              (mkField (str "P") (Some (str "P")) false (TPtr Ex.S)) VNil []
              Ex.st0
    = Ok (fv',
          [errField (str "P")
             (errCannotParse (str "x") Ex.S (errNotSupported Ex.S))],
          st')
    /\ trace st' = [LookupEnv (str "P")]
    /\ deref 1%nat fv' = Some (VStruct []).
Proof.
  destruct (@pointer_to_struct_field Ex.noMethods [(str "P", str "x")]
              Ex.inOrder Ex.IsUpper (newLoader Ex.lib) Ex.settable []
              (mkField (str "P") (Some (str "P")) false (TPtr Ex.S)) VNil []
              Ex.st0 Ex.S (str "P")
              eq_refl eq_refl eq_refl eq_refl eq_refl eq_refl eq_refl eq_refl
              eq_refl)
    as (fv' & st' & Hl & Ht & Hd).
  exists fv', st'. split; [exact (Hl _)|]. split; [exact Ht|exact Hd].
Defined.

(** Claim C5, refuted as stated: the target is of kind Map, and as its
    address has the [UnmarshalText] capability [loadVar] looks the name of
    the container up, once, and never lists the environment. *)
Lemma map_with_capability_is_looked_up :
  Kind Ex.customMap = Map
  /\ loadVar Ex.customMapMethods [(str "MAP", str "x")] Ex.inOrder
             (newLoader Ex.lib) Ex.customMap VNil Ex.settable (str "MAP") Ex.st0
     = Ok (VMap [(VString (str "text"), VString (str "x"))], None,
           mkState 100%nat [LookupEnv (str "MAP")]).
Proof. split; reflexivity. Qed.

Lemma map_target_uses_scanner_witness :
  loadVar Ex.noMethods [(str "MAP_a", str "A")] Ex.inOrder (newLoader Ex.lib)
          Ex.stringMap VNil Ex.settable (str "MAP_") Ex.st0
  = Ok (VMap [(VString (str "a"), VString (str "A"))], None,
        mkState 102%nat [Environ])
  /\ trace (mkState 102%nat [Environ]) = trace Ex.st0 ++ [Environ].
Proof.
  destruct (@map_target_uses_scanner Ex.noMethods [(str "MAP_a", str "A")]
              Ex.inOrder (newLoader Ex.lib) Ex.stringMap VNil Ex.settable
              (str "MAP_") Ex.st0
              (mkFollowed Ex.stringMap VNil Ex.settable (fun x => x)) Ex.st0
              eq_refl eq_refl eq_refl) as [Heq Htr].
  assert (Hrun :
    loadVar Ex.noMethods [(str "MAP_a", str "A")] Ex.inOrder (newLoader Ex.lib)
            Ex.stringMap VNil Ex.settable (str "MAP_") Ex.st0
    = Ok (VMap [(VString (str "a"), VString (str "A"))], None,
          mkState 102%nat [Environ])) by exact Heq.
  split; [exact Hrun|exact (Htr _ _ Hrun)].
Defined.

(** Claim C7, refuted as stated: two names start with the prefix and their
    suffixes [1] and [t] both bind to [true], so the map holds one entry. *)
Lemma equal_keys_share_an_entry :
  List.length (filter (fun ev => hasPrefix (fst ev) (str "MAP_"))
                      [(str "MAP_1", str "a"); (str "MAP_t", str "b")]) = 2%nat
  /\ parseAndSetMap Ex.noMethods
                    [(str "MAP_1", str "a"); (str "MAP_t", str "b")] Ex.inOrder
                    (newLoader Ex.lib) (str "MAP_") Ex.boolMap VNil Ex.settable
                    Ex.st0
     = Ok (VMap [(VBool true, VString (str "b"))], None,
           mkState 104%nat [Environ]).
Proof. split; reflexivity. Qed.

(** Two names whose keys are equal without being identical: the map holds
    the key and the value of the one taken last. *)
Example equal_zeros_keep_the_last :
  parseAndSetMap Ex.noMethods Ex.zerosEnv Ex.inOrder Ex.zerosLoader
                 (str "MAP_") Ex.floatMap VNil Ex.settable Ex.st0
  = Ok (VMap [(VFloat Ex.negZero, VString (str "b"))], None,
        mkState 104%nat [Environ])
  /\ survivors [(VFloat 0, VString (str "a"));
                (VFloat Ex.negZero, VString (str "b"))]
     = [(VFloat Ex.negZero, VString (str "b"))].
Proof. split; reflexivity. Qed.

Lemma map_entries_from_suffixes_witness :
  exists vars kvs m,
    Permutation vars
      (filter (fun ev => hasPrefix (fst ev) (str "MAP_")) Ex.zerosEnv)
    /\ Forall2 (entryOf Ex.noMethods Ex.zerosLoader (str "MAP_")
                        Ex.t_float64 t_string) vars kvs
    /\ VMap [(VFloat Ex.negZero, VString (str "b"))] = VMap m
    /\ Permutation m (survivors kvs)
    /\ distinctKeys m
    /\ (distinctKeys kvs -> m = kvs).
Proof.
  apply (@map_entries_from_suffixes Ex.noMethods Ex.zerosEnv Ex.inOrder
           Ex.zerosLoader (str "MAP_") EmptyString Ex.t_float64 t_string VNil
           Ex.settable Ex.st0 _ (mkState 104%nat [Environ])).
  - vm_compute. repeat constructor; simpl; intuition discriminate.
  - intros vars. apply Permutation_refl.
  - reflexivity.
Defined.

(** Claim C10, refuted as stated: the scanner finds two names under the
    prefix and the new map, which replaces the old one, holds one entry, as
    [0] and [f] both bind to [false]. *)
Lemma scanned_keys_may_collapse :
  List.length (prefixedVars [(str "M_0", str "x"); (str "M_f", str "y")]
                            (str "M_")) = 2%nat
  /\ parseAndSetMap Ex.noMethods
                    [(str "M_0", str "x"); (str "M_f", str "y")] Ex.inOrder
                    (newLoader Ex.lib) (str "M_") Ex.boolMap
                    (VMap [(VBool true, VString (str "old"))]) Ex.settable
                    Ex.st0
     = Ok (VMap [(VBool false, VString (str "y"))], None,
           mkState 104%nat [Environ]).
Proof. split; reflexivity. Qed.

Lemma collections_replaced_atomically_witness :
  (exists fields items,
      sliceFields (str "a, b") = Ok (inr fields)
      /\ Forall2 (fun f it =>
                    parseAndSetValue Ex.noMethods (newLoader Ex.lib) t_string f
                      (zero t_string) (mkFlags true false) = Ok (it, None))
                 fields items
      /\ VSlice [VString (str "a"); VString (str "b")] = VSlice items)
  /\ (exists kvs m,
        Forall2 (entryOf Ex.noMethods (newLoader Ex.lib) (str "M_")
                         t_bool t_string)
                (Ex.inOrder
                   (prefixedVars [(str "M_0", str "x"); (str "M_f", str "y")]
                                 (str "M_"))) kvs
        /\ VMap [(VBool false, VString (str "y"))] = VMap m
        /\ Permutation m (survivors kvs)
        /\ distinctKeys m
        /\ (distinctKeys kvs -> m = kvs))
  /\ VSlice [VString (str "old")] = VSlice [VString (str "old")].
Proof.
  split; [|split].
  - destruct (@collections_replaced_atomically Ex.noMethods Ex.mapEnv Ex.inOrder
                (newLoader Ex.lib)) as [Hslice _].
    exact (Hslice EmptyString t_string (str "a, b") VNil Ex.settable
                  (VSlice [VString (str "a"); VString (str "b")]) None eq_refl).
  - destruct (@collections_replaced_atomically Ex.noMethods
                [(str "M_0", str "x"); (str "M_f", str "y")] Ex.inOrder
                (newLoader Ex.lib)) as [_ Hmap].
    exact (Hmap (str "M_") EmptyString t_bool t_string
                (VMap [(VBool true, VString (str "old"))]) Ex.settable Ex.st0
                (VMap [(VBool false, VString (str "y"))])
                None (mkState 104%nat [Environ]) eq_refl).
  - destruct (@collections_replaced_atomically Ex.noMethods Ex.mapEnv Ex.inOrder
                (newLoader Ex.lib)) as [Hslice _].
    exact (Hslice EmptyString t_int (str "1,x") (VSlice [VString (str "old")])
                  Ex.settable (VSlice [VString (str "old")])
                  (Some (errItem 1
                           (errExternal "strconv.ParseInt: invalid syntax")))
                  eq_refl).
Defined.

(** * Further properties *)

(** ** The tokenizer, beyond the samples *)

Lemma tokenizeStep_text st r st' :
  tokenizeStep st r = inr st' ->
  joinComma (tok_fields st') ++ tok_sb st'
  = (joinComma (tok_fields st) ++ tok_sb st) ++ [r].
Proof.
  destruct st as [q esc sb fields]. unfold tokenizeStep.
  destruct ((r =? rune_comma) && negb esc && negb q) eqn:Hc.
  - destruct (List.length sb =? 0)%nat; [discriminate|].
    intros H. injection H as <-. simpl.
    apply andb_true_iff in Hc as [Hc _]. apply andb_true_iff in Hc as [Hc _].
    apply N.eqb_eq in Hc. subst r.
    unfold joinComma. rewrite flat_map_app. simpl.
    rewrite !app_nil_r. now rewrite app_assoc.
  - destruct ((r =? rune_quote) && negb esc);
      [|destruct ((r =? rune_backslash) && negb esc);
        [|destruct (r =? rune_NUL); [discriminate|]]];
      intros H; injection H as <-; simpl; now rewrite app_assoc.
Qed.

Lemma tokenizeLoop_text s : forall st st',
  tokenizeLoop s st = inr st' ->
  joinComma (tok_fields st') ++ tok_sb st'
  = (joinComma (tok_fields st) ++ tok_sb st) ++ s.
Proof.
  induction s as [|r s IH]; intros st st' H; simpl in H.
  - injection H as <-. now rewrite app_nil_r.
  - destruct (tokenizeStep st r) as [e|st1] eqn:E; [discriminate|].
    rewrite (IH _ _ H), (tokenizeStep_text _ _ E).
    now rewrite <- app_assoc.
Qed.

(** X1. Tokenizing loses no rune: the input is its fields, each followed
    by a comma, up to the comma after the last field. *)
Theorem tokenize_keeps_the_text (s : gostring) (fields : list gostring) :
  tokenizeSliceString s = inr fields ->
  joinComma fields = s \/ joinComma fields = s ++ [rune_comma].
Proof.
  unfold tokenizeSliceString.
  destruct (tokenizeLoop s (mkTok false false [] [])) as [e|[q esc sb fs]] eqn:E;
    [discriminate|].
  apply tokenizeLoop_text in E. simpl in E.
  destruct q; [discriminate|]. destruct esc; [discriminate|].
  intros H. injection H as <-.
  destruct sb as [|c sb]; simpl.
  - left. now rewrite app_nil_r in E.
  - right. unfold joinComma in *. rewrite flat_map_app. simpl.
    rewrite <- E, app_nil_r, <- app_assoc. reflexivity.
Qed.

Lemma tokenize_keeps_the_text_witness :
  joinComma [str "a"; str "b"] = str "a,b,"
  \/ joinComma [str "a"; str "b"] = str "a,b," ++ [rune_comma].
Proof. apply (@tokenize_keeps_the_text (str "a,b,")). reflexivity. Defined.

Lemma tokenizeLoop_nonempty s : forall st st',
  tokenizeLoop s st = inr st' ->
  Forall (fun f => f <> []) (tok_fields st) ->
  Forall (fun f => f <> []) (tok_fields st').
Proof.
  induction s as [|r s IH]; intros st st' H Hall; simpl in H.
  - now injection H as <-.
  - destruct (tokenizeStep st r) as [e|st1] eqn:E; [discriminate|].
    apply (IH _ _ H). clear H IH.
    destruct st as [q esc sb fields]. unfold tokenizeStep in E.
    destruct ((r =? rune_comma) && negb esc && negb q).
    + destruct sb as [|c sb]; [discriminate|]. simpl in E.
      injection E as <-. simpl. apply Forall_app. split; [exact Hall|].
      constructor; [discriminate|constructor].
    + destruct ((r =? rune_quote) && negb esc);
        [|destruct ((r =? rune_backslash) && negb esc);
          [|destruct (r =? rune_NUL); [discriminate|]]];
        injection E as <-; exact Hall.
Qed.

(** X2. No field the tokenizer returns is empty: an empty field before a
    comma is an error, and an empty one at the end of the input is dropped. *)
Theorem tokenize_fields_nonempty (s : gostring) (fields : list gostring) :
  tokenizeSliceString s = inr fields ->
  Forall (fun f => f <> []) fields.
Proof.
  unfold tokenizeSliceString.
  destruct (tokenizeLoop s (mkTok false false [] [])) as [e|[q esc sb fs]] eqn:E;
    [discriminate|].
  apply tokenizeLoop_nonempty in E; [|constructor]. simpl in E.
  destruct q; [discriminate|]. destruct esc; [discriminate|].
  intros H. injection H as <-.
  destruct sb as [|c sb]; simpl; [exact E|].
  apply Forall_app. split; [exact E|]. constructor; [discriminate|constructor].
Qed.

Lemma tokenize_fields_nonempty_witness :
  Forall (fun f : gostring => f <> []) [str "a"; str " "; str "b"].
Proof. apply (@tokenize_fields_nonempty (str "a, ,b")). reflexivity. Defined.

Lemma tokenizeLoop_NUL s : forall st,
  In rune_NUL s ->
  tokenizeLoop s st = inl NULByte \/ tokenizeLoop s st = inl EmptyUnquotedField.
Proof.
  induction s as [|r s IH]; intros st Hin; [contradiction|].
  simpl. destruct st as [q esc sb fields].
  destruct Hin as [Hr|Hin].
  - left. subst r. reflexivity.
  - unfold tokenizeStep.
    destruct ((r =? rune_comma) && negb esc && negb q).
    + destruct (List.length sb =? 0)%nat; [now right|now apply IH].
    + destruct ((r =? rune_quote) && negb esc); [now apply IH|].
      destruct ((r =? rune_backslash) && negb esc); [now apply IH|].
      destruct (r =? rune_NUL); [now left|now apply IH].
Qed.

(** X3. An input holding a NUL rune anywhere, quoted or escaped or not, is
    never tokenized: the result is the NUL error, unless an empty field was
    met before it. *)
Theorem tokenize_rejects_NUL (s : gostring) :
  In rune_NUL s ->
  tokenizeSliceString s = inl NULByte
  \/ tokenizeSliceString s = inl EmptyUnquotedField.
Proof.
  intros Hin. unfold tokenizeSliceString.
  destruct (tokenizeLoop_NUL s (mkTok false false [] []) Hin) as [-> | ->]; auto.
Qed.

Lemma tokenize_rejects_NUL_witness :
  tokenizeSliceString (str dq ++ rune_NUL :: str dq) = inl NULByte
  \/ tokenizeSliceString (str dq ++ rune_NUL :: str dq) = inl EmptyUnquotedField.
Proof.
  apply (@tokenize_rejects_NUL (str dq ++ rune_NUL :: str dq)).
  right. left. reflexivity.
Defined.

(** ** [unescapeSliceField] and the end of the field *)

Lemma index_in_range (runes : list rune) (k : nat) :
  (k < List.length runes)%nat -> index runes (Z.of_nat k) = Ok (nth k runes 0).
Proof.
  intros Hk. unfold index.
  destruct (Z.ltb_spec (Z.of_nat k) 0) as [Hneg|_]; [lia|].
  rewrite Nat2Z.id.
  destruct (nth_error runes k) as [r|] eqn:E.
  - f_equal. symmetry. now apply nth_error_nth.
  - apply nth_error_None in E. lia.
Qed.

Lemma index_at_length (runes : list rune) :
  index runes (Z.of_nat (List.length runes)) = Panic IndexOutOfRange.
Proof.
  unfold index.
  destruct (Z.ltb_spec (Z.of_nat (List.length runes)) 0) as [Hneg|_]; [lia|].
  rewrite Nat2Z.id.
  destruct (nth_error runes (List.length runes)) as [r|] eqn:E; [|reflexivity].
  assert (H : nth_error runes (List.length runes) <> None) by congruence.
  apply nth_error_Some in H. lia.
Qed.

Lemma findStart_le (runes : list rune) : (findStart runes <= List.length runes)%nat.
Proof.
  induction runes as [|r runes IH]; simpl; [lia|].
  destruct (IsSpace r); simpl; lia.
Qed.

(** Once the loop is to stop at [len(runes)], it runs off the end. *)
Lemma extract_overrun (f : gostring) : forall n sb,
  (1 <= n <= S (List.length f) + 1)%nat ->
  extract (f ++ [rune_backslash]) (Z.of_nat (S (List.length f))) n sb
  = Panic IndexOutOfRange.
Proof.
  set (runes := f ++ [rune_backslash]).
  assert (Hlen : List.length runes = S (List.length f))
    by (unfold runes; rewrite length_app; simpl; lia).
  induction n as [n IH] using lt_wf_ind. intros sb Hn.
  destruct n as [|m]; [lia|].
  cbn [extract].
  destruct (Nat.eq_dec m 0) as [->|Hm0].
  - (* i = len(runes) *)
    replace (Z.of_nat (S (List.length f)) + 1 - Z.of_nat 1)%Z
      with (Z.of_nat (List.length runes)) by lia.
    now rewrite index_at_length.
  - replace (Z.of_nat (S (List.length f)) + 1 - Z.of_nat (S m))%Z
      with (Z.of_nat (S (List.length f) - m)) by lia.
    rewrite index_in_range by lia. cbn [obind].
    destruct (Nat.eq_dec m 1) as [->|Hm1].
    + (* i = len(runes) - 1: the backslash itself *)
      replace (S (List.length f) - 1)%nat with (List.length f) by lia.
      unfold runes at 1. rewrite nth_middle. rewrite N.eqb_refl.
      replace (Z.of_nat (List.length f) + 1)%Z
        with (Z.of_nat (List.length runes)) by lia.
      now rewrite index_at_length.
    + destruct (nth (S (List.length f) - m) runes 0 =? rune_backslash).
      * replace (Z.of_nat (S (List.length f) - m) + 1)%Z
          with (Z.of_nat (S (List.length f) - m + 1)) by lia.
        rewrite index_in_range by lia. cbn [obind].
        destruct m as [|m']; [lia|]. apply IH; lia.
      * destruct (negb (_ =? rune_quote)); apply IH; lia.
Qed.

Lemma findEnd_at_last (f : gostring) (c : rune) :
  IsSpace c = false ->
  findEnd (f ++ [c]) (List.length (f ++ [c]))
  = if c =? rune_backslash then Z.of_nat (S (List.length f))
    else Z.of_nat (List.length f).
Proof.
  intros Hc. rewrite length_app. simpl List.length.
  replace (List.length f + 1)%nat with (S (List.length f)) by lia.
  cbn [findEnd]. rewrite nth_middle, Hc.
  destruct (c =? rune_backslash); lia.
Qed.

(** X4. A field that ends in a backslash makes [unescapeSliceField] index
    [runes] past its end, whatever comes before the backslash. *)
Theorem unescape_trailing_backslash (f : gostring) :
  unescapeSliceField (f ++ [rune_backslash]) = Panic IndexOutOfRange.
Proof.
  unfold unescapeSliceField.
  rewrite (findEnd_at_last f rune_backslash eq_refl). rewrite N.eqb_refl.
  apply extract_overrun.
  pose proof (findStart_le (f ++ [rune_backslash])) as Hs.
  rewrite length_app in Hs. simpl in Hs. lia.
Qed.

(** Where the first loop stops when the field does not end in a backslash:
    before the first rune, or on a rune of the field that is no backslash. *)
Lemma findEnd_in_range (runes : list rune) : forall n,
  (n <= List.length runes)%nat ->
  (n = List.length runes ->
   forall f', runes <> f' ++ [rune_backslash]) ->
  (forall k, (n <= k < List.length runes)%nat -> IsSpace (nth k runes 0) = true) ->
  findEnd runes n = (-1)%Z
  \/ exists e, findEnd runes n = Z.of_nat e /\ (e < List.length runes)%nat
             /\ (nth e runes 0 =? rune_backslash) = false.
Proof.
  induction n as [|m IH]; intros Hn Hlast Hsp; [now left|].
  cbn [findEnd].
  destruct (IsSpace (nth m runes 0)) eqn:Hs.
  - apply IH; [lia| |].
    + intros Hm. lia.
    + intros k Hk. destruct (Nat.eq_dec k m) as [->|]; [exact Hs|].
      apply Hsp. lia.
  - right. destruct (nth m runes 0 =? rune_backslash) eqn:Hb.
    + destruct (Nat.eq_dec (S m) (List.length runes)) as [Hend|Hmid].
      * exfalso. apply N.eqb_eq in Hb.
        apply (Hlast Hend (firstn m runes)).
        rewrite <- (firstn_skipn m runes) at 1. f_equal.
        pose proof (firstn_skipn m runes) as Hfs.
        assert (Hl : List.length (skipn m runes) = 1%nat)
          by (rewrite length_skipn; lia).
        destruct (skipn m runes) as [|c [|c' t]] eqn:Esk; try discriminate.
        f_equal. rewrite <- Hb.
        rewrite <- Hfs. rewrite app_nth2; rewrite length_firstn; [|lia].
        replace (m - Nat.min m (List.length runes))%nat with O by lia.
        reflexivity.
      * exists (S m). split; [lia|]. split; [lia|].
        assert (Hnext : IsSpace (nth (S m) runes 0) = true) by (apply Hsp; lia).
        now destruct (IsSpace_not_special _ Hnext) as (_ & _ & Hbs & _).
    + exists m. split; [reflexivity|]. split; [lia|exact Hb].
Qed.

Lemma extract_in_range (runes : list rune) (e : nat) :
  (e < List.length runes)%nat ->
  (nth e runes 0 =? rune_backslash) = false ->
  forall n sb, (n <= S e)%nat ->
    exists out, extract runes (Z.of_nat e) n sb = Ok out.
Proof.
  intros He Hb. induction n as [n IH] using lt_wf_ind. intros sb Hn.
  destruct n as [|m]; [eexists; reflexivity|].
  cbn [extract].
  replace (Z.of_nat e + 1 - Z.of_nat (S m))%Z with (Z.of_nat (e - m)) by lia.
  rewrite index_in_range by lia. cbn [obind].
  destruct (nth (e - m) runes 0 =? rune_backslash) eqn:Hr.
  - destruct m as [|m'].
    + replace (e - 0)%nat with e in Hr by lia. congruence.
    + replace (Z.of_nat (e - S m') + 1)%Z with (Z.of_nat (e - S m' + 1)) by lia.
      rewrite index_in_range by lia. cbn [obind]. apply IH; lia.
  - destruct (negb (_ =? rune_quote)); apply IH; lia.
Qed.

(** X5. On every field that does not end in a backslash
    [unescapeSliceField] returns: it never reads outside [runes]. *)
Theorem unescape_returns (f : gostring) :
  (forall f', f <> f' ++ [rune_backslash]) ->
  exists out, unescapeSliceField f = Ok out.
Proof.
  intros Hlast. unfold unescapeSliceField.
  assert (Hsp : forall k, (List.length f <= k < List.length f)%nat ->
                     IsSpace (nth k f 0) = true) by (intros k Hk; lia).
  destruct (@findEnd_in_range f (List.length f) (le_n _) (fun _ => Hlast) Hsp)
    as [->|(e & -> & He & Hb)].
  - replace (Z.to_nat (-1 + 1 - Z.of_nat (findStart f))) with O by lia.
    eexists. reflexivity.
  - apply extract_in_range; [assumption|assumption|lia].
Qed.

Lemma unescape_returns_witness :
  exists out, unescapeSliceField (str "a" ++ str bs ++ str " ") = Ok out.
Proof.
  apply (@unescape_returns (str "a" ++ str bs ++ str " ")).
  intros f' H.
  apply (f_equal (fun x => last x rune_NUL)) in H.
  rewrite last_last in H. discriminate H.
Defined.

(** ** Plain lists round-trip *)

Lemma plainRune_spec r :
  plainRune r = true ->
  (r =? rune_comma) = false /\ (r =? rune_quote) = false
  /\ (r =? rune_backslash) = false /\ (r =? rune_NUL) = false.
Proof.
  unfold plainRune. rewrite negb_true_iff, !orb_false_iff. tauto.
Qed.

Lemma tokenizeLoop_plain (ws : list rune) (sb : gostring) (fields : list gostring) :
  forallb plainRune ws = true ->
  tokenizeLoop ws (mkTok false false sb fields)
  = inr (mkTok false false (sb ++ ws) fields).
Proof.
  revert sb. induction ws as [|r ws IH]; intros sb H; simpl in *.
  - now rewrite app_nil_r.
  - apply andb_true_iff in H as [Hr Hws].
    destruct (plainRune_spec r Hr) as (Hc & Hq & Hb & Hn).
    rewrite Hc, Hq, Hb, Hn. simpl.
    rewrite IH by assumption. now rewrite <- app_assoc.
Qed.

Lemma plainField_spec f :
  plainField f = true ->
  forallb plainRune f = true /\ f <> []
  /\ findStart f = O
  /\ exists f' c, f = f' ++ [c] /\ IsSpace c = false
                 /\ (c =? rune_backslash) = false.
Proof.
  unfold plainField. intros H. apply andb_true_iff in H as [Hall H].
  destruct f as [|r f]; [discriminate|].
  apply andb_true_iff in H as [Hfirst Hlast].
  apply negb_true_iff in Hfirst, Hlast.
  split; [exact Hall|]. split; [discriminate|].
  split; [simpl; now rewrite Hfirst|].
  destruct (@exists_last _ (r :: f)) as (f' & c & E); [discriminate|].
  exists f', c. split; [exact E|].
  rewrite E, last_last in Hlast. split; [exact Hlast|].
  rewrite E, forallb_app in Hall. apply andb_true_iff in Hall as [_ Hc].
  simpl in Hc. rewrite andb_true_r in Hc.
  now destruct (plainRune_spec c Hc) as (_ & _ & Hb & _).
Qed.

Lemma skipn_cons_nth {A} (l : list A) (k : nat) (d : A) :
  (k < List.length l)%nat -> skipn k l = nth k l d :: skipn (S k) l.
Proof.
  revert k. induction l as [|a l IH]; intros k Hk; simpl in Hk; [lia|].
  destruct k; [reflexivity|]. simpl. apply IH. lia.
Qed.

(** On plain runes the third loop copies. *)
Lemma extract_plain (f : gostring) :
  forallb plainRune f = true ->
  forall n sb, (n <= List.length f)%nat ->
    extract f (Z.of_nat (List.length f) - 1) n sb
    = Ok (sb ++ skipn (List.length f - n) f).
Proof.
  intros Hall. induction n as [|m IH]; intros sb Hn.
  - simpl. rewrite Nat.sub_0_r, skipn_all. now rewrite app_nil_r.
  - cbn [extract].
    replace (Z.of_nat (List.length f) - 1 + 1 - Z.of_nat (S m))%Z
      with (Z.of_nat (List.length f - S m)) by lia.
    rewrite index_in_range by lia. cbn [obind].
    assert (Hr : plainRune (nth (List.length f - S m) f 0) = true).
    { rewrite forallb_forall in Hall. apply Hall. apply nth_In. lia. }
    destruct (plainRune_spec _ Hr) as (_ & Hq & Hb & _).
    rewrite Hb, Hq. cbn [negb]. rewrite IH by lia.
    rewrite (@skipn_cons_nth _ f (List.length f - S m) 0) by lia.
    replace (S (List.length f - S m)) with (List.length f - m)%nat by lia.
    now rewrite <- app_assoc.
Qed.

Lemma unescape_plain (f : gostring) :
  plainField f = true -> unescapeSliceField f = Ok f.
Proof.
  intros H. destruct (plainField_spec f H) as (Hall & Hne & Hs & f' & c & E & Hc & Hb).
  assert (Hend : findEnd f (List.length f) = (Z.of_nat (List.length f) - 1)%Z).
  { rewrite E, (findEnd_at_last f' c Hc), Hb, length_app. simpl. lia. }
  unfold unescapeSliceField. cbv zeta. rewrite Hs, Hend.
  replace (Z.to_nat (Z.of_nat (List.length f) - 1 + 1 - Z.of_nat 0))
    with (List.length f) by lia.
  rewrite (extract_plain f Hall) by lia.
  now rewrite Nat.sub_diag.
Qed.

Lemma unescapeAll_plain (fields : list gostring) :
  forallb plainField fields = true -> unescapeAll fields = Ok fields.
Proof.
  induction fields as [|f rest IH]; intros H; simpl in *; [reflexivity|].
  apply andb_true_iff in H as [Hf Hrest].
  now rewrite (@unescape_plain f Hf), (IH Hrest).
Qed.

Lemma tokenizeLoop_cons r s st :
  tokenizeLoop (r :: s) st =
  match tokenizeStep st r with
  | inl e => inl e
  | inr st' => tokenizeLoop s st'
  end.
Proof. reflexivity. Qed.

Lemma tokenizeStep_comma sb fields :
  sb <> [] ->
  tokenizeStep (mkTok false false sb fields) rune_comma
  = inr (mkTok false false [] (fields ++ [sb])).
Proof. destruct sb; [contradiction|reflexivity]. Qed.

Lemma tokenizeLoop_intercalate (fields : list gostring) : forall done,
  forallb plainField fields = true -> fields <> [] ->
  tokenizeLoop (intercalate fields) (mkTok false false [] done)
  = inr (mkTok false false (last fields []) (done ++ removelast fields)).
Proof.
  induction fields as [|f rest IH]; intros done Hall Hne; [contradiction|].
  simpl in Hall. apply andb_true_iff in Hall as [Hf Hrest].
  destruct (plainField_spec f Hf) as (Hpl & Hfne & _).
  destruct rest as [|g rest].
  - simpl. rewrite (tokenizeLoop_plain f [] done Hpl). now rewrite app_nil_r.
  - change (intercalate (f :: g :: rest))
      with (f ++ rune_comma :: intercalate (g :: rest)).
    rewrite tokenizeLoop_app, (tokenizeLoop_plain f [] done Hpl).
    rewrite tokenizeLoop_cons, app_nil_l, (tokenizeStep_comma done Hfne).
    cbv beta iota.
    assert (Hgne : g :: rest <> []) by discriminate.
    etransitivity; [exact (IH (done ++ [f]) Hrest Hgne)|].
    change (removelast (f :: g :: rest)) with (f :: removelast (g :: rest)).
    change (last (f :: g :: rest) []) with (last (g :: rest) []).
    now rewrite <- app_assoc.
Qed.

(** X6. A list of plain fields (no comma, quote, backslash or NUL, no
    whitespace at either end, not empty) written with commas between them
    parses back to exactly these fields. *)
Theorem plain_list_round_trip (fields : list gostring) :
  forallb plainField fields = true ->
  sliceFields (intercalate fields) = Ok (inr fields).
Proof.
  intros Hall. unfold sliceFields, tokenizeSliceString.
  destruct fields as [|f rest]; [reflexivity|].
  assert (Hne0 : f :: rest <> []) by discriminate.
  rewrite (@tokenizeLoop_intercalate (f :: rest) [] Hall Hne0).
  assert (Hlast : plainField (last (f :: rest) []) = true).
  { rewrite forallb_forall in Hall. apply Hall.
    destruct (@exists_last _ (f :: rest)) as (l' & a & E); [discriminate|].
    rewrite E, last_last. apply in_or_app. right. now left. }
  destruct (plainField_spec _ Hlast) as (_ & Hne & _).
  destruct (last (f :: rest) []) as [|c sb] eqn:El; [contradiction|].
  cbn [List.length Nat.ltb Nat.leb app].
  rewrite <- El, <- app_removelast_last by discriminate.
  now rewrite (@unescapeAll_plain (f :: rest) Hall).
Qed.

Lemma plain_list_round_trip_witness :
  sliceFields (intercalate [str "eth0"; str "10.0.0.1"; str "a b"])
  = Ok (inr [str "eth0"; str "10.0.0.1"; str "a b"]).
Proof.
  apply (@plain_list_round_trip [str "eth0"; str "10.0.0.1"; str "a b"]).
  reflexivity.
Defined.

(** ** The registry *)

Lemma kind_eqb_basic_eq x y : kind_eqb (Basic x) (Basic y) = true -> x = y.
Proof. intros H. apply kind_eqb_eq in H. now injection H. Qed.

Lemma option_gostring_eqb_eq (a b : option gostring) :
  option_eqb gostring_eqb a b = true <-> a = b.
Proof.
  destruct a as [x|], b as [y|]; simpl; split; intros H;
    try discriminate; try reflexivity.
  - apply gostring_eqb_eq in H. now subst.
  - injection H as ->. now apply gostring_eqb_eq.
Qed.

(** [type_eqb] decides type identity. *)
Lemma type_eqb_eq : forall a b, type_eqb a b = true <-> a = b.
Proof.
  induction a as [n x|e IH|n e IH|n k e IHk IHe|n fs IH] using type_fields_ind;
    intros b; (split; [destruct b; simpl; try discriminate; intros H|intros <-]).
  - apply andb_true_iff in H as [Hn Hx].
    apply String.eqb_eq in Hn. apply kind_eqb_basic_eq in Hx. now subst.
  - simpl. rewrite String.eqb_refl. now destruct x.
  - apply IH in H. now subst.
  - simpl. now apply IH.
  - apply andb_true_iff in H as [Hn He].
    apply String.eqb_eq in Hn. apply IH in He. now subst.
  - simpl. rewrite String.eqb_refl. now apply IH.
  - apply andb_true_iff in H as [H He]. apply andb_true_iff in H as [Hn Hk].
    apply String.eqb_eq in Hn. apply IHk in Hk. apply IHe in He. now subst.
  - simpl. rewrite String.eqb_refl. simpl.
    apply andb_true_iff. split; [now apply IHk|now apply IHe].
  - apply andb_true_iff in H as [Hn Hfs]. apply String.eqb_eq in Hn. subst.
    f_equal. revert fields Hfs.
    induction IH as [|f fs Hf _ IHfs]; intros [|f' fs'] Hfs.
    { reflexivity. }
    { discriminate. }
    { destruct f; discriminate. }
    destruct f as [fn ft fa fty], f' as [fn' ft' fa' fty'].
    repeat (apply andb_true_iff in Hfs as [Hfs ?]).
    apply gostring_eqb_eq in Hfs.
    match goal with H : option_eqb _ _ _ = true |- _ =>
      apply option_gostring_eqb_eq in H end.
    match goal with H : Bool.eqb _ _ = true |- _ => apply Bool.eqb_prop in H end.
    match goal with H : type_eqb fty fty' = true |- _ => apply Hf in H end.
    subst. f_equal. now apply IHfs.
  - simpl. rewrite String.eqb_refl. simpl.
    induction IH as [|f fs Hf _ IHfs]; [reflexivity|].
    destruct f as [fn ft fa fty]. rewrite IHfs.
    rewrite (proj2 (gostring_eqb_eq fn fn) eq_refl).
    rewrite (proj2 (option_gostring_eqb_eq ft ft) eq_refl).
    rewrite Bool.eqb_reflx. simpl in Hf.
    now rewrite (proj2 (Hf fty) eq_refl).
Qed.

(** X7. [AddParser] registers or replaces the parser of exactly one type:
    afterwards [hasParser] holds for it, a lookup gives the function
    registered last, and every other type finds what it found before. *)
Theorem AddParser_lookup (l : loader) (rt : type) (f g : parseFunc) :
  hasParser (AddParser l rt (Some f)) rt = true
  /\ parserFor (AddParser l rt (Some f)) rt = Some f
  /\ parserFor (AddParser (AddParser l rt (Some g)) rt (Some f)) rt = Some f
  /\ (forall t, t <> rt ->
        parsers (AddParser l rt (Some f)) t = parsers l t).
Proof.
  assert (Hrefl : type_eqb rt rt = true) by now apply type_eqb_eq.
  unfold hasParser, parserFor, AddParser. simpl. rewrite Hrefl.
  repeat split.
  intros t Hne. destruct (type_eqb t rt) eqn:E; [|reflexivity].
  apply type_eqb_eq in E. contradiction.
Qed.

Lemma AddParser_lookup_witness :
  parsers (AddParser (newLoader Ex.lib) (TPtr Ex.S)
             (Some (fun _ => inr (VStruct [])))) t_int
  = parsers (newLoader Ex.lib) t_int.
Proof.
  destruct (@AddParser_lookup (newLoader Ex.lib) (TPtr Ex.S)
              (fun _ => inr (VStruct [])) (fun _ => inr VNil))
    as (_ & _ & _ & H).
  apply H. discriminate.
Defined.

Lemma hasParser_fold (entries : list (type * parseFunc)) : forall l0 t,
  hasParser (fold_left (fun l e => AddParser l (fst e) (Some (snd e)))
                       entries l0) t
  = hasParser l0 t || existsb (fun e => type_eqb t (fst e)) entries.
Proof.
  induction entries as [|e entries IH]; intros l0 t; simpl.
  - now rewrite orb_false_r.
  - rewrite IH. unfold hasParser at 1. simpl.
    destruct (type_eqb t (fst e)); simpl.
    + now rewrite orb_true_r.
    + reflexivity.
Qed.

(** X8. The default registry holds no pointer, slice or map type (the
    three library types being structs, as they are): under [Load] a pointer
    field is always followed, and a slice or a map without [UnmarshalText]
    always goes to the tokenizer or to the scanner. *)
Theorem default_registry_kinds (lib : GoLib) (t : type) :
  Kind (t_Regexp lib) = Struct -> Kind (t_URL lib) = Struct ->
  Kind (t_Template lib) = Struct ->
  Kind t = Ptr \/ Kind t = Slice \/ Kind t = Map ->
  hasParser (newLoader lib) t = false
  /\ parserFor (newLoader lib) t = None
  /\ forall v fl, followUnlessParsed (newLoader lib) t v fl = follow t v fl.
Proof.
  intros Hre Hurl Htmpl Hk.
  assert (H : hasParser (newLoader lib) t = false).
  { change (hasParser (newLoader lib) t)
      with (hasParser
              (fold_left (fun l e => AddParser l (fst e) (Some (snd e)))
                         (defaultParsersList lib) (mkLoader (fun _ => None))) t).
    rewrite hasParser_fold. cbn [hasParser parsers orb].
    apply not_true_iff_false. intros Hex.
    apply existsb_exists in Hex as (e & Hin & He).
    apply type_eqb_eq in He. subst t.
    simpl in Hin.
    repeat (destruct Hin as [<-|Hin];
            [simpl in Hk; rewrite ?Hre, ?Hurl, ?Htmpl in Hk;
             destruct Hk as [Hk|[Hk|Hk]]; discriminate|]).
    contradiction. }
  split; [exact H|]. split.
  - unfold hasParser in H. unfold parserFor.
    destruct (parsers (newLoader lib) t); [discriminate|reflexivity].
  - intros v fl. unfold followUnlessParsed. now rewrite H.
Qed.

Lemma default_registry_kinds_witness :
  hasParser (newLoader Ex.lib) (TPtr t_bool) = false
  /\ parserFor (newLoader Ex.lib) (TPtr t_bool) = None
  /\ forall v fl,
      followUnlessParsed (newLoader Ex.lib) (TPtr t_bool) v fl
      = follow (TPtr t_bool) v fl.
Proof.
  apply (@default_registry_kinds Ex.lib (TPtr t_bool)).
  - reflexivity.
  - reflexivity.
  - reflexivity.
  - left. reflexivity.
Defined.

(** ** [follow] *)

(** X9. On a chain that is already complete [follow] allocates nothing
    and needs no settable value: it returns the leaf as it is, in the same
    state, and putting the leaf back gives the value it started from. *)
Theorem follow_complete_chain (n : nat) (leaf : type) :
  forall (v leafv : value) (fl : flags) (st : state),
  Kind leaf <> Ptr -> deref n v = Some leafv ->
  exists r,
    follow (ptrTo n leaf) v fl st = Ok (r, st)
    /\ f_type r = leaf /\ f_val r = leafv
    /\ f_plug r leafv = v
    /\ forall x, deref n (f_plug r x) = Some x.
Proof.
  induction n as [|n IH]; intros v leafv fl st Hleaf Hd.
  - simpl in Hd. injection Hd as <-.
    exists (mkFollowed leaf v fl (fun x => x)). simpl.
    split; [|auto]. destruct leaf; try reflexivity. simpl in Hleaf. congruence.
  - simpl in Hd. destruct v; try discriminate.
    destruct (IH v leafv (mkFlags true (flagRO fl)) st Hleaf Hd)
      as (r & Hf & Ht & Hv & Hp & Hx).
    exists (mkFollowed (f_type r) (f_val r) (f_flags r)
                       (fun x => VPtr a (f_plug r x))).
    simpl. unfold bind, ret. rewrite Hf. simpl.
    split; [reflexivity|]. split; [exact Ht|]. split; [exact Hv|].
    split; [now rewrite Hp|exact Hx].
Qed.

Lemma follow_complete_chain_witness :
  exists r,
    follow (ptrTo 2%nat t_bool) (VPtr 3%nat (VPtr 4%nat (VBool true)))
           (mkFlags false false) Ex.st0 = Ok (r, Ex.st0)
    /\ f_type r = t_bool /\ f_val r = VBool true
    /\ f_plug r (VBool true) = VPtr 3%nat (VPtr 4%nat (VBool true))
    /\ forall x, deref 2%nat (f_plug r x) = Some x.
Proof.
  apply (@follow_complete_chain 2%nat t_bool).
  - discriminate.
  - reflexivity.
Defined.

Lemma missing_zero n leaf : missing n (zero (ptrTo n leaf)) = n.
Proof. destruct n; reflexivity. Qed.

Lemma chainAddrs_zero n leaf : chainAddrs n (zero (ptrTo n leaf)) = [].
Proof. destruct n; reflexivity. Qed.

(** X10. [follow] allocates exactly the levels that were nil: the
    pointers that existed keep their addresses, the new ones take the next
    addresses in order, and no call is made to [os]. *)
Theorem follow_allocates_missing (n : nat) (leaf : type) :
  forall (v : value) (fl : flags) (st : state),
  Kind leaf <> Ptr -> isChain n v = true -> CanSet fl = true ->
  exists r st',
    follow (ptrTo n leaf) v fl st = Ok (r, st')
    /\ next st' = (next st + missing n v)%nat
    /\ trace st' = trace st
    /\ forall x,
        chainAddrs n (f_plug r x)
        = chainAddrs n v ++ seq (next st) (missing n v).
Proof.
  induction n as [|n IH]; intros v fl st Hleaf Hchain Hset.
  - exists (mkFollowed leaf v fl (fun x => x)), st. simpl.
    split; [destruct leaf; try reflexivity; simpl in Hleaf; congruence|].
    split; [lia|]. split; reflexivity.
  - simpl. destruct v; try discriminate.
    + unfold bind, ret, lift, reflectNew, reflectSet. rewrite Hset.
      destruct (zero_chain n leaf) as [Hz _].
      destruct (IH (zero (ptrTo n leaf)) (mkFlags true false)
                   (mkState (S (next st)) (trace st)) Hleaf Hz eq_refl)
        as (r & st' & Hf & Hn & Ht & Ha).
      rewrite Hf. simpl.
      eexists. exists st'. split; [reflexivity|].
      rewrite missing_zero in Hn, Ha. simpl in Hn, Ha.
      split; [lia|]. split; [exact Ht|].
      intros x. simpl. now rewrite Ha, chainAddrs_zero.
    + unfold bind, ret. rewrite (CanSet_flags _ Hset). simpl.
      destruct (IH v (mkFlags true false) st Hleaf Hchain eq_refl)
        as (r & st' & Hf & Hn & Ht & Ha).
      rewrite Hf. simpl.
      eexists. exists st'. split; [reflexivity|].
      split; [exact Hn|]. split; [exact Ht|].
      intros x. simpl. now rewrite Ha.
Qed.

Lemma follow_allocates_missing_witness :
  exists r st',
    follow (ptrTo 3%nat t_bool) (VPtr 5%nat VNil) Ex.settable Ex.st0
    = Ok (r, st')
    /\ next st' = (next Ex.st0 + missing 3 (VPtr 5%nat VNil))%nat
    /\ trace st' = trace Ex.st0
    /\ forall x,
        chainAddrs 3 (f_plug r x)
        = chainAddrs 3 (VPtr 5%nat VNil)
          ++ seq (next Ex.st0) (missing 3 (VPtr 5%nat VNil)).
Proof.
  apply (@follow_allocates_missing 3%nat t_bool).
  - discriminate.
  - reflexivity.
  - reflexivity.
Defined.

(** ** Binding that fails *)

Lemma parseAndSetValue_err
    (UnmarshalText : type -> option Unmarshaler) (l : loader)
    (rt : type) (s : gostring) (v : value) (fl : flags) (x : value) (e : error) :
  textUnmarshaler UnmarshalText rt v fl = Ok None ->
  parseAndSetValue UnmarshalText l rt s v fl = Ok (x, Some e) ->
  x = v.
Proof.
  intros Htu. rewrite parseAndSetValue_unfold, Htu. cbn [obind].
  destruct (parserFor l rt) as [f|].
  - destruct (f s) as [err|y].
    + intros H. now injection H as <- _.
    + unfold obind. destruct (reflectSet fl y); discriminate.
  - destruct (kind_eqb (Kind rt) Slice).
    + apply parseAndSetSlice_err.
    + intros H. now injection H as <- _.
Qed.


(** X11. Without an [UnmarshalText] capability a coercion that returns
    an error has written nothing: whether the registered parser refused the
    string, the list did not tokenize, an element did not bind or the type is
    unsupported, the target holds what it held. *)
Theorem failed_coercion_writes_nothing
    (UnmarshalText : type -> option Unmarshaler) (l : loader)
    (rt : type) (s : gostring) (v : value) (fl : flags) (x : value) (e : error) :
  textUnmarshaler UnmarshalText rt v fl = Ok None ->
  parseAndSetValue UnmarshalText l rt s v fl = Ok (x, Some e) ->
  x = v.
Proof. apply parseAndSetValue_err. Qed.

Lemma failed_coercion_writes_nothing_witness :
  VSlice [VInt 7] = VSlice [VInt 7].
Proof.
  apply (@failed_coercion_writes_nothing Ex.noMethods (newLoader Ex.lib)
           (TSlice EmptyString t_int) (str "1,2,x") (VSlice [VInt 7])
           Ex.settable (VSlice [VInt 7])
           (errItem 2 (errExternal "strconv.ParseInt: invalid syntax"))).
  - reflexivity.
  - reflexivity.
Defined.

(** X12. The same for a whole variable: when [loadVar] returns an error
    and the target has no capability, the field holds what [follow] left,
    that is its old content behind the pointers that were allocated. *)
Theorem failed_variable_writes_nothing
    (UnmarshalText : type -> option Unmarshaler)
    (environ : list (gostring * gostring))
    (mapiter : list (gostring * gostring) -> list (gostring * gostring))
    (l : loader) (rt : type) (v : value) (fl : flags) (name : gostring)
    (st st1 st' : state) (r : followed) (x : value) (e : error) :
  followUnlessParsed l rt v fl st = Ok (r, st1) ->
  textUnmarshaler UnmarshalText (f_type r) (f_val r) (f_flags r) = Ok None ->
  loadVar UnmarshalText environ mapiter l rt v fl name st = Ok (x, Some e, st') ->
  x = f_plug r (f_val r).
Proof.
  intros Hf Htu. unfold loadVar. unfold bind at 1. rewrite Hf.
  unfold bind at 1. unfold lift at 1. rewrite Htu. cbn [andb].
  destruct (kind_eqb (Kind (f_type r)) Map).
  - unfold bind, ret.
    destruct (parseAndSetMap _ _ _ _ _ _ _ _ _) as [[[y oe] st2]|p] eqn:E;
      [|discriminate].
    simpl. destruct oe as [err|]; [|discriminate].
    apply parseAndSetMap_err in E. subst y.
    intros H. now injection H as <- _.
  - unfold lookupEnv, bind, ret, emit, lift.
    destruct (getenv environ name) as [raw|].
    + destruct (parseAndSetValue _ _ _ _ _ _) as [[y oe]|p] eqn:E;
        [|discriminate].
      simpl. destruct oe as [err|]; [|discriminate].
      apply (parseAndSetValue_err _ _ _ _ _ _ Htu) in E. subst y.
      intros H. now injection H as <- _.
    + intros H. now injection H as <- _.
Qed.

Lemma failed_variable_writes_nothing_witness :
  VPtr 100%nat (VInt 0)
  = f_plug (mkFollowed t_int (VInt 0) Ex.settable (fun x => VPtr 100%nat x))
           (VInt 0).
Proof.
  apply (@failed_variable_writes_nothing Ex.noMethods [(str "N", str "x")]
           Ex.inOrder (newLoader Ex.lib) (TPtr t_int) VNil Ex.settable
           (str "N") Ex.st0 (mkState 101%nat [])
           (mkState 101%nat [LookupEnv (str "N")])
           (mkFollowed t_int (VInt 0) Ex.settable (fun x => VPtr 100%nat x))
           (VPtr 100%nat (VInt 0))
           (errCannotParse (str "x") t_int
              (errExternal "strconv.ParseInt: invalid syntax"))).
  - reflexivity.
  - reflexivity.
  - reflexivity.
Defined.

(** X13. The elements of a slice are not followed: when the element type
    is a pointer with neither capability nor registered parser (and the slice
    type has none either), every list with at least one field fails at its
    first item with the unsupported-type error, and the slice is left as it
    was. *)
Theorem slice_of_pointers_unsupported
    (UnmarshalText : type -> option Unmarshaler) (l : loader)
    (n : string) (t : type) (s : gostring) (v : value) (fl : flags)
    (f : gostring) (rest : list gostring) :
  methodSet UnmarshalText (TPtr t) = None ->
  parserFor l (TPtr t) = None ->
  textUnmarshaler UnmarshalText (TSlice n (TPtr t)) v fl = Ok None ->
  parserFor l (TSlice n (TPtr t)) = None ->
  sliceFields s = Ok (inr (f :: rest)) ->
  parseAndSetValue UnmarshalText l (TSlice n (TPtr t)) s v fl
  = Ok (v, Some (errItem 0 (errNotSupported (TPtr t)))).
Proof.
  intros Hm Hp Htu Hps Hsf.
  rewrite parseAndSetValue_unfold, Htu. cbn [obind]. rewrite Hps.
  cbn [Kind kind_eqb parseAndSetSlice]. unfold parseAndSetSliceWith.
  unfold sliceFields in Hsf.
  destruct (tokenizeSliceString s) as [e|raw]; [discriminate|].
  destruct (unescapeAll raw) as [fields|p]; [|discriminate].
  simpl in Hsf. injection Hsf as ->.
  cbn [obind List.length repeat setItems nth_error zero].
  rewrite parseAndSetValue_unfold.
  unfold textUnmarshaler.
  cbn [CanInterface CanAddr flagRO flagAddr negb]. rewrite Hm.
  cbn [methodSet obind]. rewrite Hp. reflexivity.
Qed.

Lemma slice_of_pointers_unsupported_witness :
  parseAndSetValue Ex.noMethods (newLoader Ex.lib)
                   (TSlice EmptyString (TPtr t_int)) (str "1,2") VNil Ex.settable
  = Ok (VNil, Some (errItem 0 (errNotSupported (TPtr t_int)))).
Proof.
  apply (@slice_of_pointers_unsupported Ex.noMethods (newLoader Ex.lib)
           EmptyString t_int (str "1,2") VNil Ex.settable (str "1") [str "2"]);
    reflexivity.
Defined.

(** ** What a whole walk looks up *)

Lemma hasPrefix_spec (name prefix : gostring) :
  hasPrefix name prefix = true <-> exists rest, name = prefix ++ rest.
Proof.
  revert name. induction prefix as [|p prefix IH]; intros name.
  - split; [intros _; now exists name|intros _; now destruct name].
  - destruct name as [|c name]; simpl.
    + split; [discriminate|intros [rest H]; discriminate].
    + rewrite andb_true_iff, N.eqb_eq, IH. split.
      * intros [-> [rest ->]]. now exists rest.
      * intros [rest H]. injection H as -> ->. split; [reflexivity|now exists rest].
Qed.

Lemma hasPrefix_app_l (name prefix tag : gostring) :
  hasPrefix name (prefix ++ tag) = true -> hasPrefix name prefix = true.
Proof.
  rewrite !hasPrefix_spec. intros [rest ->]. exists (tag ++ rest).
  now rewrite app_assoc.
Qed.

Section Lookups.

Variable UnmarshalText : type -> option Unmarshaler.
Variable environ : list (gostring * gostring).
Variable mapiter : list (gostring * gostring) -> list (gostring * gostring).
Variable IsUpper : rune -> bool.
Variable l : loader.

Abbreviation loadVar' := (loadVar UnmarshalText environ mapiter l).
Abbreviation loadField' := (loadField UnmarshalText environ mapiter IsUpper l).
Abbreviation loadFields' := (loadFields UnmarshalText environ mapiter IsUpper l).
Abbreviation loadStructAt' := (loadStructAt UnmarshalText environ mapiter IsUpper l).
Abbreviation loadStruct' := (loadStruct UnmarshalText environ mapiter IsUpper l).

Lemma accounted_weaken prefix tag errs errs' evs :
  accounted environ (prefix ++ tag) errs evs ->
  (forall x, In x errs -> In x errs') ->
  accounted environ prefix errs' evs.
Proof.
  intros H Hincl. unfold accounted in *.
  eapply Forall_impl; [|exact H].
  intros [name|]; [|auto]. intros [Hp Hm]. split.
  - eapply hasPrefix_app_l; eassumption.
  - intros Hnone. apply Hincl, Hm, Hnone.
Qed.

Lemma accounted_incl prefix errs errs' evs :
  accounted environ prefix errs evs ->
  (forall x, In x errs -> In x errs') ->
  accounted environ prefix errs' evs.
Proof.
  intros H Hincl. apply accounted_weaken with (tag := []) (errs := errs).
  - now rewrite app_nil_r.
  - exact Hincl.
Qed.

Lemma followUnlessParsed_silent rt v fl : silent (followUnlessParsed l rt v fl).
Proof.
  unfold followUnlessParsed. destruct (negb (hasParser l rt)).
  - apply follow_silent.
  - apply silent_ret.
Qed.

(** What one [loadVar] asks of [os]: the listing of the scanner, or one
    lookup of the name, reported when it is missing. *)
Lemma loadVar_events rt v fl name st x oe st' :
  loadVar' rt v fl name st = Ok (x, oe, st') ->
  trace st' = trace st ++ [Environ]
  \/ (trace st' = trace st ++ [LookupEnv name]
      /\ (getenv environ name = None -> oe = Some errVariableMissing)).
Proof.
  unfold loadVar. unfold bind at 1.
  destruct (followUnlessParsed l rt v fl st) as [[r st1]|p] eqn:Ef; [|discriminate].
  apply followUnlessParsed_silent in Ef.
  unfold bind at 1. unfold lift at 1.
  destruct (textUnmarshaler _ _ _ _) as [tu|p]; [|discriminate].
  destruct (_ && _).
  - unfold bind, ret.
    destruct (parseAndSetMap _ _ _ _ _ _ _ _ _) as [[res st2]|p] eqn:E;
      [|discriminate].
    apply parseAndSetMap_trace in E.
    intros H. injection H as _ _ <-. left. now rewrite E, Ef.
  - unfold lookupEnv, bind, ret, emit, lift.
    destruct (getenv environ name) as [raw|].
    + destruct (parseAndSetValue _ _ _ _ _ _) as [[y e]|p]; [|discriminate].
      intros Hres. injection Hres as _ _ Hst. subst st'. simpl. rewrite Ef.
      right. split; [reflexivity|discriminate].
    + intros Hres. injection Hres as _ Hoe Hst. subst st' oe. simpl.
      rewrite Ef. right. auto.
Qed.

Lemma loadField_events rec fl prefix f fv st fv' e st' :
  walkAccounted environ rec ->
  loadField' rec fl prefix f fv [] st = Ok (fv', e, st') ->
  exists evs, trace st' = trace st ++ evs /\ accounted environ prefix e evs.
Proof.
  intros Hrec. unfold loadField.
  assert (Hnone : forall e0, exists evs,
             trace st = trace st ++ evs /\ accounted environ prefix e0 evs).
  { intros e0. exists []. split; [now rewrite app_nil_r|constructor]. }
  destruct (_ && _).
  { intros H. injection H as _ <- <-. apply Hnone. }
  unfold bind at 1. unfold lift at 1.
  destruct (isExported IsUpper f) as [exported|p]; [|discriminate].
  destruct (negb exported).
  { intros H. injection H as _ <- <-. apply Hnone. }
  destruct (_ || _).
  { intros H. injection H as _ <- <-. apply Hnone. }
  unfold bind at 1. unfold lift at 1.
  destruct (textUnmarshaler _ _ _ _) as [tu|p]; [|discriminate].
  destruct (_ && _).
  - unfold bind, ret.
    destruct (rec _ _ _ _) as [[[x e0] st0]|p] eqn:E; [|discriminate].
    intros H. injection H as _ <- <-. simpl.
    destruct (Hrec _ _ _ _ _ _ _ E) as (evs & Ht & Ha).
    exists evs. split; [exact Ht|].
    eapply accounted_weaken; [exact Ha|auto].
  - unfold bind, ret.
    destruct (loadVar' _ _ _ _ _) as [[[x oe] st0]|p] eqn:E; [|discriminate].
    simpl. intros H.
    assert (Hst : st0 = st') by (destruct oe; now injection H).
    subst st0.
    pose proof E as Ev. apply loadVar_events in Ev.
    destruct Ev as [Ht|[Ht Hm]].
    + exists [Environ]. split; [exact Ht|]. constructor; [exact I|constructor].
    + eexists. split; [exact Ht|]. constructor; [|constructor]. split.
      * apply hasPrefix_spec. eexists. reflexivity.
      * intros Hmiss. rewrite (Hm Hmiss) in H. injection H as _ <-.
        now left.
Qed.

Lemma loadFields_events rec fl prefix fields : forall vs st vs' e st',
  Forall (fun f => walkAccounted environ (rec (Type_ f))) fields ->
  loadFields' rec fl prefix fields vs [] st = Ok (vs', e, st') ->
  exists evs, trace st' = trace st ++ evs /\ accounted environ prefix e evs.
Proof.
  induction fields as [|f fields IH]; intros vs st vs' e st' Hall H.
  - destruct vs; [|discriminate]. injection H as _ <- <-.
    exists []. split; [now rewrite app_nil_r|constructor].
  - destruct vs as [|fv vs]; [discriminate|].
    rewrite loadFields_cons in H.
    destruct (loadField' _ _ _ _ _ _ _) as [[[fv' e1] st1]|p] eqn:E1;
      [|discriminate].
    destruct (loadFields' _ _ _ _ _ _ _) as [[[vs1 e2] st2]|p] eqn:E2;
      [|discriminate].
    injection H as _ <- <-.
    inversion Hall as [|? ? Hf Hfs]; subst.
    pose proof E1 as Ev1. eapply loadField_events in Ev1; [|exact Hf].
    destruct Ev1 as (evs1 & Ht1 & Ha1).
    destruct (IH _ _ _ _ _ Hfs E2) as (evs2 & Ht2 & Ha2).
    exists (evs1 ++ evs2). split; [now rewrite Ht2, Ht1, app_assoc|].
    apply Forall_app. split.
    + eapply accounted_incl; [exact Ha1|]. intros x Hx. simpl.
      apply in_or_app. now left.
    + eapply accounted_incl; [exact Ha2|]. intros x Hx. simpl.
      apply in_or_app. now right.
Qed.

Lemma loadStructAt_events : forall rt, walkAccounted environ (loadStructAt' rt).
Proof.
  assert (Hnone : forall st e0 prefix, exists evs,
             trace st = trace st ++ evs /\ accounted environ prefix e0 evs).
  { intros st e0 prefix. exists []. split; [now rewrite app_nil_r|constructor]. }
  induction rt as [n b|e0 _|n e0 _|n k e0 _ _|n fs IH] using type_fields_ind;
    intros v fl prefix st v' e st' H; simpl in H;
    try (injection H as _ <- <-; apply Hnone).
  destruct (negb (CanAddr fl)); [injection H as _ <- <-; apply Hnone|].
  destruct v; try discriminate.
  unfold bind, ret in H.
  destruct (loadFields' _ _ _ _ _ _ _) as [[[vs' e1] st1]|p] eqn:E;
    [|discriminate].
  injection H as _ <- <-. simpl.
  eapply loadFields_events; eassumption.
Qed.

(** Every lookup of a whole [Load] is accounted for. *)
Lemma loader_Load_events dst prefix st v r st' :
  loader_Load UnmarshalText environ mapiter IsUpper l dst prefix st
  = Ok (v, r, st') ->
  exists evs errs,
    trace st' = trace st ++ evs
    /\ accounted environ prefix errs evs
    /\ r = match errs with [] => None | _ :: _ => Some (mkLoadError errs) end.
Proof.
  unfold loader_Load, loadStruct. unfold bind at 1 2.
  destruct (follow _ _ _ st) as [[fr st1]|p] eqn:Ef; [|discriminate].
  apply follow_silent in Ef.
  destruct (_ || _).
  - unfold ret. simpl. intros H. injection H as _ <- <-.
    exists [], [errInvalidDst]. split; [now rewrite Ef, app_nil_r|].
    split; [constructor|reflexivity].
  - unfold bind, ret.
    destruct (loadStructAt' _ _ _ _ _) as [[[x errs] st2]|p] eqn:E;
      [|discriminate].
    simpl. intros H.
    pose proof (loadStructAt_events (f_type fr)) as Hw.
    destruct (Hw _ _ _ _ _ _ _ E) as (evs & Ht & Ha).
    exists evs, errs. rewrite <- Ef.
    destruct errs; simpl in H; injection H as _ <- <-; auto.
Qed.

End Lookups.

(** X14. Whatever the destination, every name a [Load] looks up starts
    with the prefix it was given: there is no lookup of an unprefixed
    name. *)
Theorem Load_looks_up_prefixed_names
    (UnmarshalText : type -> option Unmarshaler)
    (environ : list (gostring * gostring))
    (mapiter : list (gostring * gostring) -> list (gostring * gostring))
    (IsUpper : rune -> bool) (l : loader)
    (dst : type * value) (prefix : gostring) (st : state)
    (v : value) (r : option loadError) (st' : state) :
  loader_Load UnmarshalText environ mapiter IsUpper l dst prefix st
  = Ok (v, r, st') ->
  exists evs,
    trace st' = trace st ++ evs
    /\ forall name, In (LookupEnv name) evs -> exists rest, name = prefix ++ rest.
Proof.
  intros H. apply loader_Load_events in H as (evs & errs & Ht & Ha & _).
  exists evs. split; [exact Ht|]. intros name Hin.
  unfold accounted in Ha. rewrite Forall_forall in Ha.
  apply hasPrefix_spec. exact (proj1 (Ha _ Hin)).
Qed.

Lemma Load_looks_up_prefixed_names_witness :
  exists evs,
    [LookupEnv (str "APP_INT"); LookupEnv (str "APP_STRING");
     LookupEnv (str "APP_INNER_FOO")] = trace Ex.st0 ++ evs
    /\ forall name, In (LookupEnv name) evs ->
                    exists rest, name = str "APP_" ++ rest.
Proof.
  apply (@Load_looks_up_prefixed_names Ex.noMethods Ex.goodEnv Ex.inOrder
           Ex.IsUpper (newLoader Ex.lib)
           (TPtr Ex.config, VPtr 1%nat (zero Ex.config)) (str "APP_") Ex.st0
           (VPtr 1%nat
              (VStruct [VInt 1; VString (str "s"); VStruct [VString (str "f")]]))
           None
           (mkState 100%nat
              [LookupEnv (str "APP_INT"); LookupEnv (str "APP_STRING");
               LookupEnv (str "APP_INNER_FOO")])).
  reflexivity.
Defined.

(** X15. No variable is optional: if a [Load] looked a name up and the
    environment does not hold it, the [Load] returns an error that lists the
    missing variable under exactly that name. In particular a [Load] that
    returns nil found every name it looked up. *)
Theorem Load_reports_missing_variables
    (UnmarshalText : type -> option Unmarshaler)
    (environ : list (gostring * gostring))
    (mapiter : list (gostring * gostring) -> list (gostring * gostring))
    (IsUpper : rune -> bool) (l : loader)
    (dst : type * value) (prefix : gostring) (st : state)
    (v : value) (r : option loadError) (st' : state) :
  loader_Load UnmarshalText environ mapiter IsUpper l dst prefix st
  = Ok (v, r, st') ->
  exists evs,
    trace st' = trace st ++ evs
    /\ forall name,
        In (LookupEnv name) evs -> getenv environ name = None ->
        exists collected,
          r = Some (mkLoadError collected)
          /\ In (errField name errVariableMissing) collected.
Proof.
  intros H. apply loader_Load_events in H as (evs & errs & Ht & Ha & Hr).
  exists evs. split; [exact Ht|]. intros name Hin Hmiss.
  unfold accounted in Ha. rewrite Forall_forall in Ha.
  pose proof (proj2 (Ha _ Hin) Hmiss) as Herr.
  exists errs. split; [|exact Herr].
  destruct errs; [contradiction|exact Hr].
Qed.

Lemma Load_reports_missing_variables_witness :
  exists evs,
    [LookupEnv (str "APP_INT"); LookupEnv (str "APP_STRING");
     LookupEnv (str "APP_INNER_FOO")] = trace Ex.st0 ++ evs
    /\ forall name,
        In (LookupEnv name) evs ->
        getenv (firstn 2 Ex.goodEnv) name = None ->
        exists collected,
          Some (mkLoadError [errField (str "APP_INNER_FOO") errVariableMissing])
          = Some (mkLoadError collected)
          /\ In (errField name errVariableMissing) collected.
Proof.
  apply (@Load_reports_missing_variables Ex.noMethods (firstn 2 Ex.goodEnv)
           Ex.inOrder Ex.IsUpper (newLoader Ex.lib)
           (TPtr Ex.config, VPtr 1%nat (zero Ex.config)) (str "APP_") Ex.st0
           (VPtr 1%nat
              (VStruct [VInt 1; VString (str "s"); VStruct [VString []]]))
           (Some (mkLoadError
                    [errField (str "APP_INNER_FOO") errVariableMissing]))
           (mkState 100%nat
              [LookupEnv (str "APP_INT"); LookupEnv (str "APP_STRING");
               LookupEnv (str "APP_INNER_FOO")])).
  reflexivity.
Defined.

(** ** The destination of [Load] *)

(** X16. [Load] only works through a pointer. A destination that is not a
    pointer, a struct passed by value included, is answered with the
    invalid-destination error alone, without a lookup and without a write;
    a nil pointer makes [follow] set an unaddressable value, which panics. *)
Theorem Load_needs_a_pointer
    (UnmarshalText : type -> option Unmarshaler)
    (environ : list (gostring * gostring))
    (mapiter : list (gostring * gostring) -> list (gostring * gostring))
    (IsUpper : rune -> bool) (l : loader)
    (rt : type) (v : value) (prefix : gostring) (st : state) :
  (Kind rt <> Ptr ->
   loader_Load UnmarshalText environ mapiter IsUpper l (rt, v) prefix st
   = Ok (v, Some (mkLoadError [errInvalidDst]), st))
  /\ loader_Load UnmarshalText environ mapiter IsUpper l (TPtr rt, VNil) prefix st
     = Panic SetUnaddressable.
Proof.
  split.
  - intros Hk. destruct rt; try reflexivity. simpl in Hk. congruence.
  - reflexivity.
Qed.

Lemma Load_needs_a_pointer_witness :
  Ex.load Ex.noMethods Ex.goodEnv (Ex.config, zero Ex.config) (str "APP_")
  = Ok (zero Ex.config, Some (mkLoadError [errInvalidDst]), Ex.st0).
Proof.
  apply (proj1 (@Load_needs_a_pointer Ex.noMethods Ex.goodEnv Ex.inOrder
                  Ex.IsUpper (newLoader Ex.lib) Ex.config (zero Ex.config)
                  (str "APP_") Ex.st0)).
  discriminate.
Defined.

(** ** Embedding *)

Section Embedding.

Variable UnmarshalText : type -> option Unmarshaler.
Variable environ : list (gostring * gostring).
Variable mapiter : list (gostring * gostring) -> list (gostring * gostring).
Variable IsUpper : rune -> bool.
Variable l : loader.

Abbreviation loadFieldE := (loadField UnmarshalText environ mapiter IsUpper l).
Abbreviation loadFieldsE := (loadFields UnmarshalText environ mapiter IsUpper l).
Abbreviation loadStructAtE := (loadStructAt UnmarshalText environ mapiter IsUpper l).

Lemma loadFields_app rec fl prefix fs1 : forall vs1 fs2 vs2 acc st,
  List.length fs1 = List.length vs1 ->
  loadFieldsE rec fl prefix (fs1 ++ fs2) (vs1 ++ vs2) acc st =
  match loadFieldsE rec fl prefix fs1 vs1 acc st with
  | Panic p => Panic p
  | Ok (vs1', e1, st1) =>
      match loadFieldsE rec fl prefix fs2 vs2 e1 st1 with
      | Panic p => Panic p
      | Ok (vs2', e2, st2) => Ok (vs1' ++ vs2', e2, st2)
      end
  end.
Proof.
  induction fs1 as [|f fs1 IH]; intros [|v vs1] fs2 vs2 acc st Hlen;
    try discriminate; simpl.
  - unfold ret. destruct (loadFieldsE rec fl prefix fs2 vs2 acc st)
      as [[[vs2' e2] st2]|p]; reflexivity.
  - unfold bind, ret.
    destruct (loadFieldE (rec (Type_ f)) fl prefix f v acc st)
      as [[[v' e0] st0]|p]; [|reflexivity].
    simpl. rewrite IH by (simpl in Hlen; lia).
    destruct (loadFieldsE rec fl prefix fs1 vs1 e0 st0)
      as [[[vs1' e1] st1]|p]; [|reflexivity].
    simpl.
    destruct (loadFieldsE rec fl prefix fs2 vs2 e1 st1)
      as [[[vs2' e2] st2]|p]; reflexivity.
Qed.

Lemma loadFields_length rec fl prefix fields : forall vs acc st vs' e st',
  loadFieldsE rec fl prefix fields vs acc st = Ok (vs', e, st') ->
  List.length vs' = List.length fields.
Proof.
  induction fields as [|f fields IH]; intros [|v vs] acc st vs' e st' H;
    try discriminate; simpl in H.
  - now injection H as <- _ _.
  - unfold bind, ret in H.
    destruct (loadFieldE _ _ _ _ _ _ _) as [[[v' e0] st0]|p]; [|discriminate].
    simpl in H.
    destruct (loadFieldsE _ _ _ _ _ _ _) as [[[vs1 e1] st1]|p] eqn:E;
      [|discriminate].
    injection H as <- _ _. simpl. f_equal. eapply IH. exact E.
Qed.

Lemma loadField_embedded nm (m : string) fs vs fl prefix acc st :
  isExported IsUpper (mkField nm None true (TStruct m fs)) = Ok true ->
  CanSet fl = true ->
  hasParser l (TStruct m fs) = false ->
  UnmarshalText (TStruct m fs) = None ->
  loadFieldE (loadStructAtE (TStruct m fs)) fl prefix
             (mkField nm None true (TStruct m fs)) (VStruct vs) acc st
  = match loadFieldsE loadStructAtE fl prefix fs vs [] st with
    | Panic p => Panic p
    | Ok (vs', e, st') => Ok (VStruct vs', acc ++ e, st')
    end.
Proof.
  intros Hexp Hset Hp Hu. unfold loadField.
  cbn [Tag Anonymous Type_ Kind kind_eqb negb andb].
  rewrite Hexp. unfold bind at 1. unfold lift at 1.
  rewrite (CanSet_flags _ Hset).
  cbn [negb orb andb flagAddr flagRO CanInterface CanSet].
  unfold textUnmarshaler.
  cbn [negb CanInterface CanAddr flagAddr flagRO methodSet].
  rewrite Hu, Hp. unfold bind at 1. unfold lift at 1.
  cbn [negb andb]. rewrite app_nil_r.
  unfold bind at 1. cbn [loadStructAt CanAddr flagAddr negb].
  unfold bind, ret.
  destruct (loadFieldsE loadStructAtE _ prefix fs vs [] st)
    as [[[vs' e] st']|p]; reflexivity.
Qed.

(** X17. An exported embedded struct without annotation whose type has
    neither a registered parser nor an [UnmarshalText] method is
    transparent: a struct that embeds it is walked exactly as the struct
    that declares the embedded fields in its place, with the same lookups
    under the same names, the same errors in the same order and the same
    values. (With a parser or the method the embedded struct is bound as one
    variable under the bare prefix instead.) *)
Theorem embedded_struct_is_transparent
    (nm : gostring) (m : string) (fs rest : list (StructField type))
    (vs vrest : list value) (fl : flags) (prefix : gostring)
    (acc : list error) (st : state) :
  isExported IsUpper (mkField nm None true (TStruct m fs)) = Ok true ->
  CanSet fl = true ->
  hasParser l (TStruct m fs) = false ->
  UnmarshalText (TStruct m fs) = None ->
  List.length fs = List.length vs ->
  loadFieldsE loadStructAtE fl prefix
              (mkField nm None true (TStruct m fs) :: rest)
              (VStruct vs :: vrest) acc st
  = match loadFieldsE loadStructAtE fl prefix (fs ++ rest) (vs ++ vrest) acc st with
    | Panic p => Panic p
    | Ok (all, e, st') =>
        Ok (VStruct (firstn (List.length fs) all) :: skipn (List.length fs) all,
            e, st')
    end.
Proof.
  intros Hexp Hset Hp Hu Hlen.
  rewrite loadFields_app by exact Hlen.
  cbn [loadFields]. unfold bind at 1.
  change (Type_ (mkField nm None true (TStruct m fs))) with (TStruct m fs).
  rewrite (@loadField_embedded nm m fs vs fl prefix acc st Hexp Hset Hp Hu).
  rewrite (loadFields_acc UnmarshalText environ mapiter IsUpper l
             loadStructAtE fl prefix fs vs acc st).
  destruct (loadFieldsE loadStructAtE fl prefix fs vs [] st)
    as [[[vs' e] st1]|p] eqn:E; [|reflexivity].
  cbn [withErrs fst snd]. unfold bind, ret.
  destruct (loadFieldsE loadStructAtE fl prefix rest vrest (acc ++ e) st1)
    as [[[vr e2] st2]|p]; [|reflexivity].
  cbn [fst snd].
  apply loadFields_length in E.
  rewrite <- E, firstn_app, firstn_all, Nat.sub_diag, firstn_O, app_nil_r.
  now rewrite skipn_app, skipn_all, Nat.sub_diag.
Qed.

End Embedding.

Lemma embedded_struct_is_transparent_witness :
  loadFields Ex.noMethods [(str "FOO", str "f")] Ex.inOrder Ex.IsUpper
             (newLoader Ex.lib)
             (loadStructAt Ex.noMethods [(str "FOO", str "f")] Ex.inOrder
                           Ex.IsUpper (newLoader Ex.lib))
             Ex.settable []
             [ mkField (str "Foo") None true Ex.Foo;
               mkField (str "Int") (Some (str "INT")) false t_int ]
             [VStruct [VString []]; VInt 0] [] Ex.st0
  = Ok ([VStruct [VString (str "f")]; VInt 0],
        [errField (str "INT") errVariableMissing],
        mkState 100%nat [LookupEnv (str "FOO"); LookupEnv (str "INT")]).
Proof.
  etransitivity.
  - apply (@embedded_struct_is_transparent Ex.noMethods [(str "FOO", str "f")]
             Ex.inOrder Ex.IsUpper (newLoader Ex.lib) (str "Foo") "Foo"
             [mkField (str "Foo") (Some (str "FOO")) false t_string]
             [mkField (str "Int") (Some (str "INT")) false t_int]
             [VString []] [VInt 0] Ex.settable [] [] Ex.st0);
      reflexivity.
  - reflexivity.
Defined.

(** ** The scanner *)

Section Scanner.

Variable environ : list (gostring * gostring).
Variable prefix : gostring.

Abbreviation scanStep :=
  (fun (vars : list (gostring * gostring)) (ev : gostring * gostring) =>
     let '(name, value) := ev in
     if hasPrefix name prefix then mapassign gostring_eqb vars name value
     else vars).

Lemma mapassign_keys (m : list (gostring * gostring)) k v n :
  In n (map fst (mapassign gostring_eqb m k v)) <-> n = k \/ In n (map fst m).
Proof.
  induction m as [|[k' v'] m IH]; simpl.
  - split; [intros [<-|[]]; auto|intros [->|[]]; auto].
  - destruct (gostring_eqb k' k) eqn:E; simpl.
    + apply gostring_eqb_eq in E. subst. intuition congruence.
    + rewrite IH. intuition congruence.
Qed.

Lemma mapassign_NoDup (m : list (gostring * gostring)) k v :
  NoDup (map fst m) -> NoDup (map fst (mapassign gostring_eqb m k v)).
Proof.
  induction m as [|[k' v'] m IH]; simpl; intros H.
  - constructor; [intros []|constructor].
  - inversion H as [|? ? Hnotin Hnd]; subst.
    destruct (gostring_eqb k' k) eqn:E; simpl.
    + apply gostring_eqb_eq in E. subst. constructor; assumption.
    + constructor; [|now apply IH].
      rewrite mapassign_keys. intros [->|Hin]; [|contradiction].
      assert (gostring_eqb k k = true) by now apply gostring_eqb_eq.
      congruence.
Qed.

Lemma mapassign_entries (m : list (gostring * gostring)) k v n w :
  In (n, w) (mapassign gostring_eqb m k v) -> (n = k /\ w = v) \/ In (n, w) m.
Proof.
  induction m as [|[k' v'] m IH]; simpl.
  - intros [H|[]]. injection H as <- <-. auto.
  - destruct (gostring_eqb k' k) eqn:E; simpl.
    + apply gostring_eqb_eq in E. subst.
      intros [H|H]; [injection H as <- <-; auto|auto].
    + intros [H|H]; [auto|]. destruct (IH H); auto.
Qed.

Lemma scan_invariant (env : list (gostring * gostring)) : forall acc,
  NoDup (map fst acc) ->
  NoDup (map fst (fold_left scanStep env acc))
  /\ (forall n w, In (n, w) (fold_left scanStep env acc) ->
                  In (n, w) acc \/ (In (n, w) env /\ hasPrefix n prefix = true))
  /\ (forall n, In n (map fst acc)
                \/ (exists w, In (n, w) env /\ hasPrefix n prefix = true) ->
                In n (map fst (fold_left scanStep env acc))).
Proof.
  induction env as [|[name value] env IH]; intros acc Hnd; simpl.
  - split; [exact Hnd|]. split; [auto|].
    intros n [H|(w & [] & _)]. exact H.
  - destruct (hasPrefix name prefix) eqn:Hp.
    + destruct (IH (mapassign gostring_eqb acc name value)
                   (mapassign_NoDup _ _ _ Hnd)) as (H1 & H2 & H3).
      split; [exact H1|]. split.
      * intros n w Hin. destruct (H2 n w Hin) as [Ha|[He Hpre]]; [|auto].
        apply mapassign_entries in Ha as [[-> ->]|Ha]; auto.
      * intros n Hn. apply H3. rewrite mapassign_keys.
        destruct Hn as [Hn|(w & [Heq|Hin] & Hpre)]; eauto.
        injection Heq as -> ->. auto.
    + destruct (IH acc Hnd) as (H1 & H2 & H3).
      split; [exact H1|]. split.
      * intros n w Hin. destruct (H2 n w Hin) as [Ha|[He Hpre]]; auto.
      * intros n Hn. apply H3.
        destruct Hn as [Hn|(w & [Heq|Hin] & Hpre)]; eauto.
        injection Heq as -> ->. congruence.
Qed.

(** X18. The map the scanner builds holds each name once; every entry is
    an entry of the environment whose name starts with the prefix, so that
    the prefix followed by the key string is the name again; and every name
    of the environment that starts with the prefix is a key of the map. *)
Theorem scanner_finds_the_prefixed_names :
  NoDup (map fst (prefixedVars environ prefix))
  /\ (forall n w, In (n, w) (prefixedVars environ prefix) ->
                  In (n, w) environ
                  /\ hasPrefix n prefix = true
                  /\ prefix ++ skipn (List.length prefix) n = n)
  /\ (forall n w, In (n, w) environ -> hasPrefix n prefix = true ->
                  In n (map fst (prefixedVars environ prefix))).
Proof.
  destruct (scan_invariant environ [] (NoDup_nil _)) as (H1 & H2 & H3).
  split; [exact H1|]. split.
  - intros n w Hin. destruct (H2 n w Hin) as [[]|[He Hp]].
    split; [exact He|]. split; [exact Hp|].
    apply hasPrefix_spec in Hp as [rest ->].
    now rewrite skipn_app, skipn_all, Nat.sub_diag.
  - intros n w Hin Hp. apply H3. right. eauto.
Qed.

End Scanner.

Lemma scanner_finds_the_prefixed_names_witness :
  In (str "MAP_b") (map fst (prefixedVars Ex.mapEnv (str "MAP_")))
  /\ str "MAP_" ++ skipn 4 (str "MAP_a") = str "MAP_a".
Proof.
  destruct (@scanner_finds_the_prefixed_names Ex.mapEnv (str "MAP_"))
    as (_ & H2 & H3).
  split.
  - apply (H3 (str "MAP_b") (str "B")); [simpl; auto|reflexivity].
  - apply (H2 (str "MAP_a") (str "A")). vm_compute. auto.
Defined.
